(** * Simple Tetris: the game engine of [scripts/main.js]

    A shallow embedding of the board, the falling piece, collision
    detection, locking, line clearing, rotation, the [tick] step and the
    keyboard handler, together with the properties the specification
    states about them.
    The rectangles that [draw] paints and the settings of [audioState]
    are modelled beside the engine.

    JavaScript numbers that index the grid or count points are modelled
    as [Z].  A [TypeError] (reading or writing a property of [undefined])
    is the outcome [Throw]; the state reached before the throw is kept,
    as it is in the browser. *)

From Stdlib Require Import ZArith Lia FunInd Recdef.
From Stdlib Require Strings.String.
From stdpp Require Import base list.
Import String.StringSyntax.

Local Delimit Scope string_scope with string.

Local Open Scope Z_scope.

(** ** Constants *)

Definition COLS : Z := 10.
Definition ROWS : Z := 20.

(** ** Values *)

(** What a cell of a shape holds: a number, or [undefined] (which only
    arises when [rotate] reads past the end of a short row). *)
Inductive value : Type :=
| Undefined
| Number (n : Z).

(** JavaScript truthiness of a cell value. *)
Definition truthy (v : value) : bool :=
  match v with
  | Undefined => false
  | Number n => negb (n =? 0)
  end.

(** A slot of a board row.  Writing past the end of a JavaScript array
    leaves holes behind; a hole reads as [undefined] but is skipped by
    [some] and [forEach]. *)
Inductive slot : Type :=
| Hole
| Elem (n : Z).

Definition slot_value (s : slot) : value :=
  match s with
  | Hole => Undefined
  | Elem n => Number n
  end.

Abbreviation Shape := (list (list value)).
Abbreviation Board := (list (list slot)).

(** ** Outcomes *)

Inductive res (A : Type) : Type :=
| Val (a : A)
| Throw.
Arguments Val {A} a.
Arguments Throw {A}.

(** ** Array reads *)

(** [a[i]] for an integer [i]: [None] stands for [undefined].  A
    negative index names a property that no array of the program has. *)
Definition get {A : Type} (a : list A) (i : Z) : option A :=
  if i <? 0 then None else a !! Z.to_nat i.

(** [row[x]] on a board row, as a value. *)
Definition read_slot (row : list slot) (x : Z) : value :=
  match get row x with
  | Some s => slot_value s
  | None => Undefined
  end.

(** ** The seven tetrominoes *)

Inductive tetromino : Type := KI | KO | KL | KJ | KT | KS | KZ.

Definition row_of (l : list Z) : list value := Number <$> l.

Definition SHAPES (k : tetromino) : Shape :=
  match k with
  | KI => [row_of [1; 1; 1; 1]]
  | KO => [row_of [1; 1]; row_of [1; 1]]
  | KL => [row_of [1; 0]; row_of [1; 0]; row_of [1; 1]]
  | KJ => [row_of [0; 1]; row_of [0; 1]; row_of [1; 1]]
  | KT => [row_of [1; 1; 1]; row_of [0; 1; 0]]
  | KS => [row_of [0; 1; 1]; row_of [1; 1; 0]]
  | KZ => [row_of [1; 1; 0]; row_of [0; 1; 1]]
  end.

(** ** Collision detection *)

(** The inner loop of [collide]: the cells of [np[r]] from column [c]
    on, with [y = ny + r].  [Val false] means the row was scanned without
    a hit, so the outer loop goes on. *)
Fixpoint collide_cells (board : Board) (nx y c : Z) (cells : list value)
  : res bool :=
  match cells with
  | [] => Val false
  | v :: rest =>
      if truthy v then
        let x := nx + c in
        if (x <? 0) || (COLS <=? x) || (ROWS <=? y) then Val true
        else
          match get board y with
          | None => Throw
          | Some brow =>
              if truthy (read_slot brow x) then Val true
              else collide_cells board nx y (c + 1) rest
          end
      else collide_cells board nx y (c + 1) rest
  end.

(** The outer loop of [collide], from row [r] on. *)
Fixpoint collide_rows (board : Board) (nx ny r : Z) (rows : Shape)
  : res bool :=
  match rows with
  | [] => Val false
  | cells :: rest =>
      match collide_cells board nx (ny + r) 0 cells with
      | Val false => collide_rows board nx ny (r + 1) rest
      | other => other
      end
  end.

Definition collide (board : Board) (nx ny : Z) (np : Shape) : res bool :=
  collide_rows board nx ny 0 np.

(** ** Vocabulary of the statements *)

(** The cell [np[r][c]] is filled. *)
Definition occupied (np : Shape) (r c : nat) : Prop :=
  ∃ cells v, np !! r = Some cells ∧ cells !! c = Some v ∧ truthy v = true.

(** The board cell at column [x], row [y] holds a block. *)
Definition isOccupied (board : Board) (x y : Z) : bool :=
  match get board y with
  | Some brow => truthy (read_slot brow x)
  | None => false
  end.

(** The position lies outside the left, right or bottom border. *)
Definition outside (x y : Z) : Prop := x < 0 ∨ COLS <= x ∨ ROWS <= y.

(** The position stops a piece cell: outside, or on a block. *)
Definition blocked (board : Board) (x y : Z) : Prop :=
  outside x y ∨ isOccupied board x y = true.


(** ** Rotation *)

(** [r[i]] on a shape row: [undefined] past the end. *)
Definition index_value (r : list value) (i : nat) : value :=
  default Undefined (r !! i).

(** [p[0].map((_, i) => p.map(r => r[i])).reverse()].  With no row 0,
    [p[0]] is [undefined] and calling [map] on it throws. *)
Definition rotate (p : Shape) : res Shape :=
  match p !! 0%nat with
  | None => Throw
  | Some p0 => Val (reverse (imap (λ i _, (λ r, index_value r i) <$> p) p0))
  end.

(** ** Game state and effects *)

(** What the engine does to the page: canvas redraws, the score label,
    the alert box, the interval timer and the theme music. *)
Inductive event : Type :=
| Draw
| ScoreText (n : Z)
| Alert (n : Z)
| ClearInterval
| SetInterval
| PlayTheme.

(** The global variables of the script.  [loop] is [true] while the
    interval timer that calls [tick] is scheduled. *)
Record state : Type := State {
  board : Board;
  piece : Shape;
  px : Z;
  py : Z;
  score : Z;
  loop : bool
}.

Definition set_board (b : Board) (s : state) : state :=
  State b (piece s) (px s) (py s) (score s) (loop s).
Definition set_piece (p : Shape) (s : state) : state :=
  State (board s) p (px s) (py s) (score s) (loop s).
Definition set_px (x : Z) (s : state) : state :=
  State (board s) (piece s) x (py s) (score s) (loop s).
Definition set_py (y : Z) (s : state) : state :=
  State (board s) (piece s) (px s) y (score s) (loop s).
Definition set_score (n : Z) (s : state) : state :=
  State (board s) (piece s) (px s) (py s) n (loop s).
Definition set_loop (l : bool) (s : state) : state :=
  State (board s) (piece s) (px s) (py s) (score s) l.

(** A computation reads and updates the globals, may throw, and emits
    events.  The state and the events reached before a throw are kept. *)
Definition M (A : Type) : Type := state → res A * state * list event.

Definition ret {A : Type} (a : A) : M A := λ s, (Val a, s, []).

Definition bind {A B : Type} (m : M A) (f : A → M B) : M B := λ s,
  match m s with
  | (Val a, s1, ev1) => let '(r, s2, ev2) := f a s1 in (r, s2, ev1 ++ ev2)
  | (Throw, s1, ev1) => (Throw, s1, ev1)
  end.

Definition lift {A : Type} (r : res A) : M A := λ s, (r, s, []).
Definition modify (f : state → state) : M unit := λ s, (Val tt, f s, []).
Definition emit (e : event) : M unit := λ s, (Val tt, s, [e]).

Notation "'let*' x ':=' m 'in' k" := (bind m (λ x, k))
  (at level 10, x name, m at level 100, k at level 200).
Notation "m '>>' k" := (bind m (λ _, k))
  (at level 100, k at level 200, right associativity).

Definition outcome {A : Type} (r : res A * state * list event) : res A := r.1.1.
Definition final {A : Type} (r : res A * state * list event) : state := r.1.2.
Definition events {A : Type} (r : res A * state * list event) : list event := r.2.

(** ** Board construction and drawing *)

Definition emptyRow : list slot := replicate (Z.to_nat COLS) (Elem 0).

Definition newBoard : Board := replicate (Z.to_nat ROWS) emptyRow.

(** [shape.map(r => r.slice())]: a copy of the chosen template.  The
    random index [Math.floor(Math.random() * keys.length)] is the
    argument [k]. *)
Definition newPiece (k : tetromino) : Shape := (λ r, r) <$> SHAPES k.

(** [draw] reads [board[r][c]] for every [r < ROWS]: a missing row makes
    it throw.  The event is recorded when the redraw completes. *)
Definition draw : M unit := λ s,
  if Z.of_nat (length (board s)) <? ROWS then (Throw, s, [])
  else (Val tt, s, [Draw]).

(** ** Locking a piece *)

(** [row[x] = v]: an index past the end extends the array and leaves
    holes; a negative index sets a property that nothing reads, and the
    elements stay as they are. *)
Definition array_set (row : list slot) (x : Z) (v : slot) : list slot :=
  if x <? 0 then row
  else if x <? Z.of_nat (length row) then <[Z.to_nat x := v]> row
  else row ++ replicate (Z.to_nat x - length row) Hole ++ [v].

(** [board[y][x] = 1].  It mutates the row object in place; no other
    variable of the script refers to a board row. *)
Definition write_cell (b : Board) (x y : Z) : res unit * Board :=
  match get b y with
  | None => (Throw, b)
  | Some brow => (Val tt, <[Z.to_nat y := array_set brow x (Elem 1)]> b)
  end.

(** [row.forEach((v, c) => { if(v) board[py + r][px + c] = 1 })] from
    column [c] on, with [y = py + r]. *)
Fixpoint merge_cells (b : Board) (x0 y c : Z) (cells : list value)
  : res unit * Board :=
  match cells with
  | [] => (Val tt, b)
  | v :: rest =>
      if truthy v then
        match write_cell b (x0 + c) y with
        | (Val _, b1) => merge_cells b1 x0 y (c + 1) rest
        | (Throw, b1) => (Throw, b1)
        end
      else merge_cells b x0 y (c + 1) rest
  end.

(** [piece.forEach((row, r) => ...)] from row [r] on. *)
Fixpoint merge_rows (b : Board) (x0 y0 r : Z) (rows : Shape)
  : res unit * Board :=
  match rows with
  | [] => (Val tt, b)
  | cells :: rest =>
      match merge_cells b x0 (y0 + r) 0 cells with
      | (Val _, b1) => merge_rows b1 x0 y0 (r + 1) rest
      | (Throw, b1) => (Throw, b1)
      end
  end.

Definition merge : M unit := λ s,
  let '(r, b) := merge_rows (board s) (px s) (py s) 0 (piece s) in
  (r, set_board b s, []).

(** ** Clearing lines *)

(** [row.some(v => !v)]: [some] skips holes. *)
Definition some_empty (row : list slot) : bool :=
  existsb (λ s, match s with Hole => false | Elem n => n =? 0 end) row.

(** [while(board.length < ROWS){ board.unshift(...); cleared++ }]. *)
Function unshift_loop (b : Board) (cleared : Z)
  {measure (λ b : Board, Z.to_nat (ROWS - Z.of_nat (length b))) b}
  : Board * Z :=
  if Z.of_nat (length b) <? ROWS
  then unshift_loop (emptyRow :: b) (cleared + 1)
  else (b, cleared).
Proof.
  intros b _ H. apply Z.ltb_lt in H. simpl length. lia.
Defined.

(** The rows with an empty cell are kept, the loop refills the board
    from the top, and each row it adds scores ten points. *)
Definition clearLines : M unit := λ s,
  let kept := filter (λ row, some_empty row) (board s) in
  let '(b, cleared) := unshift_loop kept 0 in
  let total := score s + cleared * 10 in
  (Val tt, set_score total (set_board b s), [ScoreText total]).

(** ** The game loop *)

(** [px = Math.floor(COLS / 2) - 1; py = 0] with a copy of shape [k]. *)
Definition resetPiece (k : tetromino) : M unit :=
  modify (λ s, set_py 0 (set_px (COLS / 2 - 1) (set_piece (newPiece k) s))).

(** [clearInterval(loop); alert("Game Over! Score: " + score)]. *)
Definition gameOver : M unit := λ s,
  (Val tt, set_loop false s, [ClearInterval; Alert (score s)]).

(** [collide(nx, ny)] and [collide(nx, ny, np)] against the current
    board; the two-argument call takes [np = piece]. *)
Definition collideM (nx ny : Z) (np : Shape) : M bool := λ s,
  (collide (board s) nx ny np, s, []).

(** One timer step.  [k] is the shape drawn by [resetPiece] when the
    piece locks.  [return gameOver()] leaves before the final [draw()]. *)
Definition tick (k : tetromino) : M unit := λ s,
  (let* hit := collideM (px s) (py s + 1) (piece s) in
   if negb hit then
     modify (λ s, set_py (py s + 1) s) >>
     draw
   else
     merge >>
     clearLines >>
     resetPiece k >>
     let* over := (λ s, collideM (px s) (py s) (piece s) s) in
     if over then gameOver
     else draw) s.

(** The Start button.  [k] is the first shape.  [if(loop)
    clearInterval(loop)] is recorded when a timer is scheduled; on an
    id that [gameOver] already cleared the call has no effect.
    [audioState.play()] belongs to the annotated script only. *)
Definition start (k : tetromino) : M unit := λ s,
  (modify (set_board newBoard) >>
   modify (set_score 0) >>
   resetPiece k >>
   draw >>
   (if loop s then emit ClearInterval else ret tt) >>
   emit PlayTheme >>
   modify (set_loop true) >>
   emit SetInterval) s.

(** ** Keyboard *)

Inductive keyname : Type :=
| ArrowLeft | ArrowRight | ArrowDown | ArrowUp | OtherKey.

Definition is_key (a b : keyname) : bool :=
  match a, b with
  | ArrowLeft, ArrowLeft | ArrowRight, ArrowRight
  | ArrowDown, ArrowDown | ArrowUp, ArrowUp | OtherKey, OtherKey => true
  | _, _ => false
  end.

(** [if(cond && !test) act]: the collision check only runs when the key
    matches. *)
Definition guarded (cond : bool) (test : M bool) (act : M unit) : M unit :=
  if cond then
    let* hit := test in
    if negb hit then act else ret tt
  else ret tt.

(** [window.onkeydown]: [e] is [e.key], the four tests run in turn. *)
Definition onkeydown (e : keyname) : M unit :=
  guarded (is_key e ArrowLeft)
    (λ s, collideM (px s - 1) (py s) (piece s) s)
    (modify (λ s, set_px (px s - 1) s)) >>
  guarded (is_key e ArrowRight)
    (λ s, collideM (px s + 1) (py s) (piece s) s)
    (modify (λ s, set_px (px s + 1) s)) >>
  guarded (is_key e ArrowDown)
    (λ s, collideM (px s) (py s + 1) (piece s) s)
    (modify (λ s, set_py (py s + 1) s)) >>
  (if is_key e ArrowUp then
     λ s, (let* np := lift (rotate (piece s)) in
           let* hit := collideM (px s) (py s) np in
           if negb hit then modify (set_piece np) else ret tt) s
   else ret tt) >>
  draw.

(** ** Commands and reachable states *)

(** What the browser can deliver to the engine after [start]: a timer
    callback, which draws the next shape if the piece locks, or a key. *)
Inductive cmd : Type :=
| Tick (k : tetromino)
| Key (e : keyname).

Definition step (c : cmd) : M unit :=
  match c with
  | Tick k => tick k
  | Key e => onkeydown e
  end.

(** The timer only fires while the interval is scheduled. *)
Definition enabled (c : cmd) (s : state) : Prop :=
  match c with
  | Tick _ => loop s = true
  | Key _ => True
  end.

(** The states of a game: [start] from any earlier state of the page,
    then timer callbacks and keys. *)
Inductive reachable : state → Prop :=
| reach_start k s0 : reachable (final (start k s0))
| reach_step c s : reachable s → enabled c s → reachable (final (step c s)).

(** Running a list of commands, for concrete games. *)
Fixpoint run (cs : list cmd) (s : state) : state :=
  match cs with
  | [] => s
  | c :: rest => run rest (final (step c s))
  end.

(** Every timer callback of the list finds the interval scheduled. *)
Fixpoint run_enabled (cs : list cmd) (s : state) : bool :=
  match cs with
  | [] => true
  | c :: rest =>
      match c with Tick _ => loop s | Key _ => true end &&
      run_enabled rest (final (step c s))
  end.

(** ** Well-formed boards and pieces *)

(** Every slot of the row holds a number. *)
Definition dense (row : list slot) : Prop := Forall (λ s, s ≠ Hole) row.

(** [ROWS] rows, each of width [COLS]. *)
Definition has_dims (b : Board) : Prop :=
  Z.of_nat (length b) = ROWS ∧
  Forall (λ row, Z.of_nat (length row) = COLS) b.

(** A board of the data model: the dimensions, and a cell in every slot. *)
Definition wf_board (b : Board) : Prop :=
  has_dims b ∧ Forall dense b.

(** [r] rows, each of [c] cells. *)
Definition rectangular (p : Shape) (r c : nat) : Prop :=
  length p = r ∧ Forall (λ row, length row = c) p.

(** The shape has a first row, and that row has a cell. *)
Definition rotatable (p : Shape) : Prop :=
  ∃ v cells rest, p = (v :: cells) :: rest.

(** Every cell of the row is filled (the specification's full row). *)
Definition row_full (row : list slot) : bool :=
  forallb (λ s, truthy (slot_value s)) row.

Definition full_rows (b : Board) : Z :=
  Z.of_nat (length (filter (λ row, row_full row) b)).

(** What holds of the globals throughout a game. *)
Record Inv (s : state) : Prop := {
  inv_board : wf_board (board s);
  inv_py : 0 <= py s;
  inv_piece : rotatable (piece s);
  inv_score : 0 <= score s;
  inv_free : loop s = true →
             collide (board s) (px s) (py s) (piece s) = Val false
}.

(** ** Rotation, iterated and as the specification words it *)

Definition res_bind {A B : Type} (r : res A) (f : A → res B) : res B :=
  match r with
  | Val a => f a
  | Throw => Throw
  end.

(** [rotate] applied [n] times. *)
Fixpoint rotate_times (n : nat) (p : Shape) : res Shape :=
  match n with
  | O => Val p
  | S n' => res_bind (rotate p) (rotate_times n')
  end.

(** [p[i][j]], [undefined] when there is no such cell. *)
Definition cell (p : Shape) (i j : nat) : value :=
  default Undefined (p !! i ≫= λ row, row !! j).

(** The layout the specification words: [c] rows and [r] columns, with
    the input cell [row][col] at output position [col][r-1-row]. *)
Definition rotate_clockwise_spec (p : Shape) : Shape :=
  let r := length p in
  let c := length (default [] (p !! 0%nat)) in
  (λ i, (λ j, cell p (r - 1 - j) i) <$> seq 0 r) <$> seq 0 c.

(** The number of redraws among the events. *)
Definition is_draw (e : event) : bool :=
  match e with Draw => true | _ => false end.

Definition draws (evs : list event) : nat :=
  length (filter (λ e, is_draw e) evs).

(** ** Concrete games *)

(** The globals before the first click on Start. *)
Definition blank : state := State [] [] 0 0 0 false.

(** Start, then 99 timer steps in which every shape drawn is the
    square: ten squares minus the last lock, stacked in columns 4-5. *)
Definition stacked : state :=
  run (replicate 99 (Tick KO)) (final (start KO blank)).

(** A single block above the board, and a domino hanging over the
    right border from above. *)
Definition dot : Shape := [row_of [1]].
Definition domino : Shape := [row_of [1; 1]].

(** The globals after a lock that left the board [b1]: lines cleared
    and scored, the next piece [k] at the spawn position. *)
Definition locked (k : tetromino) (s : state) (b1 : Board) : state :=
  final (resetPiece k (final (clearLines (set_board b1 s)))).

(** The board a lock leaves, before lines are cleared. *)
Definition merged (s : state) : Board := board (final (merge s)).

(** The first state of a game whose first shape is the square. *)
Definition fresh : state := final (start KO blank).

(** A game that fills the bottom row: an I slid to the left wall, an I
    dropped in place, a square slid to the right wall and lowered to
    the floor.  The next timer step locks it and completes row 19. *)
Definition bottom_row_game : list cmd :=
  replicate 4 (Key ArrowLeft) ++ replicate 20 (Tick KI) ++
  replicate 20 (Tick KO) ++
  replicate 4 (Key ArrowRight) ++ replicate 18 (Tick KT).

Definition before_clear : state :=
  run bottom_row_game (final (start KI blank)).

(** A hand-built position: a block in row 0 at column 6, row 19 filled
    up to column 7, and the square resting on the floor in columns 8-9. *)
Definition top_block_position : state :=
  State (<[0%nat := <[6%nat := Elem 1]> emptyRow]>
           (<[19%nat := replicate 8 (Elem 1) ++ replicate 2 (Elem 0)]>
              newBoard))
        (SHAPES KO) 8 18 0 true.

(** ** Rotation on the heap *)

(** In the script a shape is an array object holding references to row
    objects.  To tell what [rotate] allocates and what it writes, the
    same code is modelled over a store of arrays: addresses are
    positions, allocation appends. *)
Inductive hvalue : Type :=
| HUndefined
| HNumber (n : Z)
| HRef (l : nat).

Abbreviation store := (list (list hvalue)).

Definition alloc (a : list hvalue) (h : store) : nat * store :=
  (length h, h ++ [a]).

(** [r[i]] for a value [r]: a [TypeError] on [undefined]; a number has
    no such property.  Every reference of a well-formed store is
    allocated. *)
Definition heap_index (h : store) (r : hvalue) (i : nat) : res hvalue :=
  match r with
  | HUndefined => Throw
  | HNumber _ => Val HUndefined
  | HRef l =>
      match h !! l with
      | Some a => Val (default HUndefined (a !! i))
      | None => Throw
      end
  end.

(** The elements of [p.map(r => r[i])]. *)
Fixpoint heap_column (h : store) (rows : list hvalue) (i : nat)
  : res (list hvalue) :=
  match rows with
  | [] => Val []
  | r :: rest =>
      res_bind (heap_index h r i) (λ v,
      res_bind (heap_column h rest i) (λ vs, Val (v :: vs)))
  end.

(** [p[0].map((_, i) => p.map(r => r[i]))] for the [n] indices from [i]
    on: each callback allocates the array it returns. *)
Fixpoint heap_transpose (h : store) (rows : list hvalue) (i n : nat)
  : res (list hvalue) * store :=
  match n with
  | O => (Val [], h)
  | S n' =>
      match heap_column h rows i with
      | Throw => (Throw, h)
      | Val a =>
          let '(l, h1) := alloc a h in
          match heap_transpose h1 rows (S i) n' with
          | (Val refs, h2) => (Val (HRef l :: refs), h2)
          | (Throw, h2) => (Throw, h2)
          end
      end
  end.

(** [rotate(p)] for a reference [p]: the outer [map] allocates the
    result, and [reverse] then reorders that new array in place. *)
Definition heap_rotate (h : store) (p : hvalue) : res hvalue * store :=
  match p with
  | HRef lp =>
      match h !! lp with
      | Some rows =>
          match rows !! 0%nat with
          | Some (HRef l0) =>
              match h !! l0 with
              | Some p0 =>
                  match heap_transpose h rows 0 (length p0) with
                  | (Val refs, h1) =>
                      let '(q, h2) := alloc refs h1 in
                      (Val (HRef q), <[q := reverse refs]> h2)
                  | (Throw, h1) => (Throw, h1)
                  end
              | None => (Throw, h)
              end
          | _ => (Throw, h)
          end
      | None => (Throw, h)
      end
  | _ => (Throw, h)
  end.

Definition embed (v : value) : hvalue :=
  match v with
  | Undefined => HUndefined
  | Number n => HNumber n
  end.

(** The value [v] refers to an array holding the cells of [row]. *)
Definition repr_row (h : store) (v : hvalue) (row : list value) : Prop :=
  ∃ l, v = HRef l ∧ h !! l = Some (embed <$> row).

(** The value [p] refers to an array of references to the rows of
    [shape]. *)
Definition repr (h : store) (p : hvalue) (shape : Shape) : Prop :=
  ∃ lp refs, p = HRef lp ∧ h !! lp = Some refs ∧
             Forall2 (repr_row h) refs shape.

(** The value is a reference allocated after the store [h]. *)
Definition fresh_in (h : store) (v : hvalue) : Prop :=
  ∃ l, v = HRef l ∧ (length h <= l)%nat.

(** The L piece in a store: its three rows, then the array of the
    references to them. *)
Definition heap_L : store :=
  [[HNumber 1; HNumber 0]; [HNumber 1; HNumber 0]; [HNumber 1; HNumber 1];
   [HRef 0; HRef 1; HRef 2]].

(** ** What a key does *)

(** The position is free for the shape: [collide] returns [false]. *)
Definition free (b : Board) (x y : Z) (np : Shape) : bool :=
  match collide b x y np with
  | Val false => true
  | _ => false
  end.

(** The state a key leads to when nothing throws: the piece moved by
    one cell or turned, if it is free there, and the same state
    otherwise. *)
Definition key_target (e : keyname) (s : state) : state :=
  match e with
  | ArrowLeft =>
      if free (board s) (px s - 1) (py s) (piece s)
      then set_px (px s - 1) s else s
  | ArrowRight =>
      if free (board s) (px s + 1) (py s) (piece s)
      then set_px (px s + 1) s else s
  | ArrowDown =>
      if free (board s) (px s) (py s + 1) (piece s)
      then set_py (py s + 1) s else s
  | ArrowUp =>
      match rotate (piece s) with
      | Val np =>
          if free (board s) (px s) (py s) np then set_piece np s else s
      | Throw => s
      end
  | OtherKey => s
  end.

(** The pile of squares after the step that ends the game. *)
Definition piled_over : state := run (replicate 100 (Tick KO)) fresh.

(** ** Orientations of the catalog shapes *)

(** Some cell of the shape is filled. *)
Definition has_filled (p : Shape) : bool :=
  existsb (λ cells, existsb truthy cells) p.

(** The number of filled cells of the shape. *)
Definition filled_cells (p : Shape) : Z :=
  foldr (λ cells n, Z.of_nat (length (filter (λ v, truthy v) cells)) + n) 0 p.

(** ** Counting blocks *)

(** The number of blocks in a board row, and in the board. *)
Definition row_blocks (row : list slot) : Z :=
  Z.of_nat (length (filter (λ sl, truthy (slot_value sl)) row)).

Definition blocks (b : Board) : Z :=
  foldr (λ row n, row_blocks row + n) 0 b.

(** One for a slot that holds a block. *)
Definition slot_count (sl : slot) : Z :=
  if truthy (slot_value sl) then 1 else 0.

(** ** Painting the canvas *)

(** The side of a cell in pixels. *)
Definition SIZE : Z := 20.

(** The two fill styles of [draw]: ["#0af"] for the blocks of the board
    and ["#fa0"] for the falling piece. *)
Inductive colour : Type := Blue | Orange.

(** The calls [draw] makes on the canvas context: [clearRect] over the
    whole canvas, and [fillRect(x, y, w, h)] under a fill style. *)
Inductive paintop : Type :=
| ClearRect
| FillRect (col : colour) (x y w h : Z).

(** [ctx.fillStyle = color; ctx.fillRect(x * SIZE, y * SIZE, SIZE - 1,
    SIZE - 1)]. *)
Definition drawCell (x y : Z) (col : colour) : paintop :=
  FillRect col (x * SIZE) (y * SIZE) (SIZE - 1) (SIZE - 1).

(** [for(let c = 0; c < COLS; c++) if(board[r][c]) drawCell(c, r,
    "#0af")] on the row [brow = board[r]]. *)
Definition paint_cells (brow : list slot) (r : Z) : list paintop :=
  c ← seqZ 0 COLS;
  if truthy (read_slot brow c) then [drawCell c r Blue] else [].

(** The outer loop of [draw] over the row indices [rs]: reading
    [board[r][0]] throws when the board has no row [r]. *)
Fixpoint paint_rows (b : Board) (rs : list Z) : res (list paintop) :=
  match rs with
  | [] => Val []
  | r :: rest =>
      match get b r with
      | None => Throw
      | Some brow =>
          res_bind (paint_rows b rest) (λ ops, Val (paint_cells brow r ++ ops))
      end
  end.

(** [piece.forEach((row, r) => row.forEach((v, c) => { if(v)
    drawCell(px + c, py + r, "#fa0") }))]. *)
Definition paint_piece (p : Shape) (x0 y0 : Z) : list paintop :=
  mjoin (imap (λ r cells,
    mjoin (imap (λ c v,
      if truthy v
      then [drawCell (x0 + Z.of_nat c) (y0 + Z.of_nat r) Orange]
      else []) cells)) p).

(** What a completed [draw] has sent to the canvas, in order. *)
Definition paint (s : state) : res (list paintop) :=
  res_bind (paint_rows (board s) (seqZ 0 ROWS))
    (λ blue, Val (ClearRect :: blue ++ paint_piece (piece s) (px s) (py s))).

(** ** Audio settings *)

(** The two fields of [audioState], which are also the two fields of the
    object that [save] stores. *)
Record audio : Type := Audio {
  isMuted : bool;
  volume : Z
}.

(** What the methods of [audioState] read and write: its fields, the
    [localStorage] item ['tetrisAudioSettings'] ([None] when there is no
    item; the item is the JSON text of an object, kept here as the
    object), the volume of the theme music in hundredths
    ([themeMusic.volume] times 100), whether the toggle button carries
    the class ['muted'], its title, and the value assigned to the
    slider. *)
Record page : Type := Page {
  settings : audio;
  stored : option audio;
  music_percent : Z;
  button_muted : bool;
  button_title : String.string;
  slider : Z
}.

Definition set_settings (a : audio) (p : page) : page :=
  Page a (stored p) (music_percent p) (button_muted p) (button_title p)
       (slider p).

(** [applySettings()].  The volume of a media element lies between 0 and
    1: the assignment throws for any other number, before the button and
    the slider are touched. *)
Definition applySettings (p : page) : res unit * page :=
  let a := settings p in
  let v := if isMuted a then 0 else volume a in
  if (v <? 0) || (100 <? v) then (Throw, p)
  else
    (Val tt,
     Page a (stored p) v (isMuted a)
          (if isMuted a then "Sound is muted"%string
           else "Toggle sound"%string)
          (volume a)).

(** [save()]. *)
Definition save (p : page) : page :=
  Page (settings p) (Some (settings p)) (music_percent p) (button_muted p)
       (button_title p) (slider p).

(** [load()]: [settings.volume || 70] is 70 when the stored volume is 0;
    [settings.isMuted || false] is the stored flag. *)
Definition load (p : page) : res unit * page :=
  applySettings
    match stored p with
    | Some a =>
        set_settings
          (Audio (isMuted a || false) (if volume a =? 0 then 70 else volume a))
          p
    | None => p
    end.

(** [f(); this.save()] where [f] may throw. *)
Definition then_save (r : res unit * page) : res unit * page :=
  match r with
  | (Val _, p) => (Val tt, save p)
  | (Throw, p) => (Throw, p)
  end.

(** [toggleMute()]. *)
Definition toggleMute (p : page) : res unit * page :=
  let a := settings p in
  then_save (applySettings (set_settings (Audio (negb (isMuted a)) (volume a)) p)).

(** [setVolume(level)] for an integer [level], as [parseInt] reads it
    off the slider. *)
Definition setVolume (level : Z) (p : page) : res unit * page :=
  let v := Z.max 0 (Z.min 100 level) in
  let m := if (0 <? v) && isMuted (settings p) then false
           else isMuted (settings p) in
  then_save (applySettings (set_settings (Audio m v) p)).

(** The two listeners that [initAudio] attaches: a click on the toggle
    button, and an input on the slider. *)
Inductive audio_cmd : Type :=
| ClickToggle
| SlideTo (level : Z).

Definition audio_step (c : audio_cmd) (p : page) : res unit * page :=
  match c with
  | ClickToggle => toggleMute p
  | SlideTo level => setVolume level p
  end.

(** A sequence of clicks and slides; a throw ends it. *)
Fixpoint audio_run (cs : list audio_cmd) (p : page) : res unit * page :=
  match cs with
  | [] => (Val tt, p)
  | c :: rest =>
      match audio_step c p with
      | (Val _, p1) => audio_run rest p1
      | (Throw, p1) => (Throw, p1)
      end
  end.

(** The volume is a percentage. *)
Definition in_range (a : audio) : Prop := 0 <= volume a <= 100.

(** The settings in use and the stored ones are percentages. *)
Definition audio_ok (p : page) : Prop :=
  in_range (settings p) ∧
  match stored p with Some a => in_range a | None => True end.

(** The music, the button and the slider show the settings. *)
Definition shown (p : page) : Prop :=
  music_percent p = (if isMuted (settings p) then 0 else volume (settings p)) ∧
  button_muted p = isMuted (settings p) ∧
  button_title p = (if isMuted (settings p) then "Sound is muted"%string
                    else "Toggle sound"%string) ∧
  slider p = volume (settings p).

(** The page as the script finds it when it is loaded again: the
    settings are the defaults of [audioState], the storage is that of
    [p]. *)
Definition reopened (p0 p : page) : Prop :=
  settings p0 = Audio false 70 ∧ stored p0 = stored p.

(** Muted at 40, then the slider is moved to 0. *)
Definition silenced : page :=
  (audio_run [SlideTo 40; ClickToggle; SlideTo 0]
     (Page (Audio false 70) None 100 false String.EmptyString 70)).2.

(** ** Facts about [collide] *)

Section CollideFacts.
Variable board : Board.
Variables nx ny : Z.

Lemma get_None_iff {A : Type} (a : list A) (i : Z) :
  get a i = None ↔ i < 0 ∨ Z.of_nat (length a) <= i.
Proof.
  unfold get. destruct (Z.ltb_spec i 0) as [Hi|Hi].
  - split; [intros _; lia | reflexivity].
  - rewrite lookup_ge_None. lia.
Qed.

Lemma outside_test x y :
  (x <? 0) || (COLS <=? x) || (ROWS <=? y) = true ↔ outside x y.
Proof. unfold outside. rewrite !orb_true_iff. lia. Qed.

(** What each outcome of the inner loop tells about the row. *)
Lemma collide_cells_spec y cells : ∀ c,
  match collide_cells board nx y c cells with
  | Val true =>
      ∃ (j : nat) v, cells !! j = Some v ∧ truthy v = true ∧
                     blocked board (nx + (c + Z.of_nat j)) y
  | Val false =>
      ∀ (j : nat) v, cells !! j = Some v → truthy v = true →
                     ¬ blocked board (nx + (c + Z.of_nat j)) y ∧
                     get board y ≠ None
  | Throw =>
      ∃ (j : nat) v, cells !! j = Some v ∧ truthy v = true ∧
                     ¬ outside (nx + (c + Z.of_nat j)) y ∧
                     get board y = None
  end.
Proof.
  induction cells as [|v rest IH]; intros c; simpl.
  - intros j v Hj. rewrite lookup_nil in Hj. discriminate.
  - destruct (truthy v) eqn:Hv.
    + destruct ((nx + c <? 0) || (COLS <=? nx + c) || (ROWS <=? y)) eqn:Hout.
      * exists 0%nat, v. rewrite Z.add_0_r. repeat split; try done.
        left. by apply outside_test.
      * assert (Hin : ¬ outside (nx + c) y).
        { rewrite <- outside_test, Hout. discriminate. }
        destruct (get board y) as [brow|] eqn:Hrow.
        -- destruct (truthy (read_slot brow (nx + c))) eqn:Hocc.
           ++ exists 0%nat, v. rewrite Z.add_0_r. repeat split; try done.
              right. unfold isOccupied. by rewrite Hrow.
           ++ specialize (IH (c + 1)).
              destruct (collide_cells board nx y (c + 1) rest) as [[|]|].
              ** destruct IH as (j & w & Hj & Hw & Hb).
                 exists (S j), w. repeat split; try done.
                 replace (c + Z.of_nat (S j)) with (c + 1 + Z.of_nat j) by lia.
                 done.
              ** intros [|j] w Hj Hw.
                 { simpl in Hj. injection Hj as <-. rewrite Z.add_0_r.
                   split; [|congruence].
                   intros [Ho|Ho]; [done|].
                   unfold isOccupied in Ho. rewrite Hrow in Ho. congruence. }
                 replace (c + Z.of_nat (S j)) with (c + 1 + Z.of_nat j) by lia.
                 by apply (IH j w).
              ** destruct IH as (j & w & Hj & Hw & Hb).
                 exists (S j), w. repeat split; try done;
                 replace (c + Z.of_nat (S j)) with (c + 1 + Z.of_nat j) by lia;
                 tauto.
        -- exists 0%nat, v. rewrite Z.add_0_r. repeat split; done.
    + specialize (IH (c + 1)).
      destruct (collide_cells board nx y (c + 1) rest) as [[|]|].
      * destruct IH as (j & w & Hj & Hw & Hb).
        exists (S j), w. repeat split; try done.
        replace (c + Z.of_nat (S j)) with (c + 1 + Z.of_nat j) by lia.
        done.
      * intros [|j] w Hj Hw.
        { simpl in Hj. injection Hj as <-. congruence. }
        replace (c + Z.of_nat (S j)) with (c + 1 + Z.of_nat j) by lia.
        by apply (IH j w).
      * destruct IH as (j & w & Hj & Hw & Hb).
        exists (S j), w. repeat split; try done;
        replace (c + Z.of_nat (S j)) with (c + 1 + Z.of_nat j) by lia;
        tauto.
Qed.

(** The same for the outer loop, over the rows from [r0] on. *)
Lemma collide_rows_spec rows : ∀ r0,
  match collide_rows board nx ny r0 rows with
  | Val true =>
      ∃ i j : nat, occupied rows i j ∧
                   blocked board (nx + Z.of_nat j) (ny + (r0 + Z.of_nat i))
  | Val false =>
      ∀ i j : nat, occupied rows i j →
                   ¬ blocked board (nx + Z.of_nat j) (ny + (r0 + Z.of_nat i)) ∧
                   get board (ny + (r0 + Z.of_nat i)) ≠ None
  | Throw =>
      ∃ i j : nat, occupied rows i j ∧
                   ¬ outside (nx + Z.of_nat j) (ny + (r0 + Z.of_nat i)) ∧
                   get board (ny + (r0 + Z.of_nat i)) = None
  end.
Proof.
  induction rows as [|cells rest IH]; intros r0; simpl.
  - intros i j (cs & v & Hi & _). rewrite lookup_nil in Hi. discriminate.
  - pose proof (collide_cells_spec (ny + r0) cells 0) as Hrow.
    specialize (IH (r0 + 1)).
    destruct (collide_cells board nx (ny + r0) 0 cells) as [[|]|].
    + destruct Hrow as (j & v & Hj & Hv & Hb).
      exists 0%nat, j. rewrite Z.add_0_r. split; [by exists cells, v|done].
    + destruct (collide_rows board nx ny (r0 + 1) rest) as [[|]|].
      * destruct IH as (i & j & (cs & v & Hi & Hj & Hv) & Hb).
        exists (S i), j. split; [by exists cs, v|].
        replace (r0 + Z.of_nat (S i)) with (r0 + 1 + Z.of_nat i) by lia.
        done.
      * intros [|i] j (cs & v & Hi & Hj & Hv).
        { simpl in Hi. injection Hi as <-. rewrite Z.add_0_r.
          by apply (Hrow j v). }
        replace (r0 + Z.of_nat (S i)) with (r0 + 1 + Z.of_nat i) by lia.
        apply IH. by exists cs, v.
      * destruct IH as (i & j & (cs & v & Hi & Hj & Hv) & Hb).
        exists (S i), j. split; [by exists cs, v|].
        replace (r0 + Z.of_nat (S i)) with (r0 + 1 + Z.of_nat i) by lia.
        done.
    + destruct Hrow as (j & v & Hj & Hv & Hb).
      exists 0%nat, j. rewrite Z.add_0_r. split; [by exists cells, v|done].
Qed.

Variable np : Shape.

(** [collide] answers [true] only at a blocked cell. *)
Lemma collide_true_inv :
  collide board nx ny np = Val true →
  ∃ r c : nat, occupied np r c ∧
               blocked board (nx + Z.of_nat c) (ny + Z.of_nat r).
Proof.
  unfold collide. intros H. pose proof (collide_rows_spec np 0) as Hs.
  rewrite H in Hs. exact Hs.
Qed.

(** [collide] answers [false] only when every filled cell is free and
    its board row exists. *)
Lemma collide_false_inv :
  collide board nx ny np = Val false →
  ∀ r c : nat, occupied np r c →
               ¬ blocked board (nx + Z.of_nat c) (ny + Z.of_nat r) ∧
               get board (ny + Z.of_nat r) ≠ None.
Proof.
  unfold collide. intros H. pose proof (collide_rows_spec np 0) as Hs.
  rewrite H in Hs. exact Hs.
Qed.

(** [collide] throws only at a filled cell inside the three borders
    whose board row does not exist. *)
Lemma collide_throw_inv :
  collide board nx ny np = Throw →
  ∃ r c : nat, occupied np r c ∧
               ¬ outside (nx + Z.of_nat c) (ny + Z.of_nat r) ∧
               get board (ny + Z.of_nat r) = None.
Proof.
  unfold collide. intros H. pose proof (collide_rows_spec np 0) as Hs.
  rewrite H in Hs. exact Hs.
Qed.

(** On a board with all its [ROWS] rows, and with no filled cell above
    row 0, [collide] returns a boolean. *)
Lemma collide_total :
  ROWS <= Z.of_nat (length board) →
  (∀ r c : nat, occupied np r c → 0 <= ny + Z.of_nat r) →
  ∃ hit : bool, collide board nx ny np = Val hit.
Proof.
  intros Hlen Hy. destruct (collide board nx ny np) as [hit|] eqn:E.
  - by exists hit.
  - apply collide_throw_inv in E as (r & c & Hocc & Hin & Hnone).
    apply get_None_iff in Hnone. specialize (Hy r c Hocc).
    unfold outside in Hin. lia.
Qed.

End CollideFacts.

(** ** Collision: borders, blocks and the missing top check *)

Lemma occupied_head (cells : list value) (rest : Shape) (c : nat) v :
  cells !! c = Some v → truthy v = true → occupied (cells :: rest) 0 c.
Proof. intros Hc Hv. by exists cells, v. Qed.

(** A cell above row 0 and between the side borders is not blocked:
    it is inside the three borders that are checked, and no board row
    lies there. *)
Lemma above_not_blocked (b : Board) (x y : Z) :
  y < 0 → 0 <= x < COLS → ¬ blocked b x y.
Proof.
  intros Hy Hx [Ho|Ho].
  - unfold outside, ROWS in Ho. lia.
  - unfold isOccupied, get in Ho.
    destruct (Z.ltb_spec y 0); [discriminate | lia].
Qed.

(** C1, as stated, fails: on the empty board, the domino [[1,1]]
    anchored at column 9, row -1 has its second cell at x = 10 >= COLS,
    yet [collide] does not return [true]: it throws at the first cell,
    whose row [board[-1]] is [undefined]. *)
Lemma collide_domino_over_border :
  occupied domino 0 1 ∧
  outside (9 + Z.of_nat 1) (-1 + Z.of_nat 0) ∧
  collide newBoard 9 (-1) domino = Throw.
Proof.
  split; [|split].
  - by apply (occupied_head _ _ 1 (Number 1)).
  - right. left. unfold COLS. simpl. lia.
  - reflexivity.
Qed.

(** C1 (amended): on a board that has its [ROWS] rows, and for a shape
    and anchor with no filled cell above row 0, [collide] returns [true]
    whenever some filled cell maps to x < 0, x >= COLS or y >= ROWS,
    whatever the board holds; and when every filled cell is inside these
    borders it returns a boolean that is [true] exactly when some filled
    cell lands on an occupied board cell. *)
Theorem collide_borders_then_blocks (b : Board) (np : Shape) (nx ny : Z) :
  ROWS <= Z.of_nat (length b) →
  (∀ r c : nat, occupied np r c → 0 <= ny + Z.of_nat r) →
  ((∃ r c : nat, occupied np r c ∧
                 outside (nx + Z.of_nat c) (ny + Z.of_nat r)) →
   collide b nx ny np = Val true) ∧
  ((∀ r c : nat, occupied np r c →
                 ¬ outside (nx + Z.of_nat c) (ny + Z.of_nat r)) →
   ∃ hit : bool,
     collide b nx ny np = Val hit ∧
     (hit = true ↔
      ∃ r c : nat, occupied np r c ∧
                   isOccupied b (nx + Z.of_nat c) (ny + Z.of_nat r) = true)).
Proof.
  intros Hlen Hy.
  destruct (collide_total b nx ny np Hlen Hy) as [hit Hhit].
  split.
  - intros (r & c & Hocc & Hout). destruct hit; [done|].
    destruct (collide_false_inv _ _ _ _ Hhit r c Hocc) as [Hfree _].
    exfalso. apply Hfree. by left.
  - intros Hin. exists hit. split; [done|]. split.
    + intros ->.
      destruct (collide_true_inv _ _ _ _ Hhit) as (r & c & Hocc & [Ho|Ho]).
      * by destruct (Hin r c Hocc).
      * by exists r, c.
    + intros (r & c & Hocc & Ho). destruct hit; [done|].
      destruct (collide_false_inv _ _ _ _ Hhit r c Hocc) as [Hfree _].
      exfalso. apply Hfree. by right.
Qed.

(** The I piece anchored at column 8 of the empty board sticks out on
    the right. *)
Lemma collide_borders_then_blocks_witness :
  collide newBoard 8 0 (SHAPES KI) = Val true.
Proof.
  refine (proj1 (collide_borders_then_blocks newBoard (SHAPES KI) 8 0 _ _) _).
  - vm_compute. discriminate.
  - intros r c _. lia.
  - exists 0%nat, 2%nat. split.
    + by apply (occupied_head _ _ 2 (Number 1)).
    + right. left. vm_compute. discriminate.
Defined.

(** C5, as stated, fails: the single block [[1]] anchored at column 0,
    row -1 of the empty board is the only filled cell, it is above row 0
    and between the side borders, no cell is blocked, and [collide] does
    not return [false]: it throws. *)
Lemma collide_dot_above_board :
  occupied dot 0 0 ∧
  -1 + Z.of_nat 0 < 0 ∧ 0 <= 0 + Z.of_nat 0 < COLS ∧
  (∀ r c : nat, occupied dot r c →
                ¬ blocked newBoard (0 + Z.of_nat c) (-1 + Z.of_nat r)) ∧
  collide newBoard 0 (-1) dot = Throw.
Proof.
  split; [|split; [|split; [|split]]].
  - by apply (occupied_head _ _ 0 (Number 1)).
  - simpl. lia.
  - unfold COLS. simpl. lia.
  - intros [|r] [|c] (cells & v & Hr & Hc & Hv); simpl in *;
      try discriminate.
    + apply above_not_blocked; unfold COLS; simpl; lia.
    + injection Hr as <-. discriminate.
  - reflexivity.
Qed.

(** C5 (amended): [collide] has no y < 0 check.  It returns [true] only
    at a filled cell that is outside the left, right or bottom border or
    on an occupied board cell, never because of a cell above row 0.  But
    in the presence of a filled cell above row 0 between the side borders
    it never returns [false]: if no filled cell is blocked it throws (the
    row [board[y]] is [undefined]).  It is total, returning a boolean, on
    a board with its [ROWS] rows when no filled cell lies above row 0. *)
Theorem collide_no_top_check (b : Board) (np : Shape) (nx ny : Z) :
  (collide b nx ny np = Val true →
   ∃ r c : nat, occupied np r c ∧
                blocked b (nx + Z.of_nat c) (ny + Z.of_nat r) ∧
                ¬ (ny + Z.of_nat r < 0 ∧ 0 <= nx + Z.of_nat c < COLS)) ∧
  ((∃ r c : nat, occupied np r c ∧
                 ny + Z.of_nat r < 0 ∧ 0 <= nx + Z.of_nat c < COLS) →
   collide b nx ny np ≠ Val false ∧
   ((∀ r c : nat, occupied np r c →
                  ¬ blocked b (nx + Z.of_nat c) (ny + Z.of_nat r)) →
    collide b nx ny np = Throw)) ∧
  (ROWS <= Z.of_nat (length b) →
   (∀ r c : nat, occupied np r c → 0 <= ny + Z.of_nat r) →
   ∃ hit : bool, collide b nx ny np = Val hit).
Proof.
  split; [|split].
  - intros H. destruct (collide_true_inv _ _ _ _ H) as (r & c & Hocc & Hb).
    exists r, c. repeat split; try done.
    intros [Hy Hx]. by apply (above_not_blocked b _ _ Hy Hx).
  - intros (r & c & Hocc & Hy & Hx).
    assert (Hnf : collide b nx ny np ≠ Val false).
    { intros H. destruct (collide_false_inv _ _ _ _ H r c Hocc) as [_ Hrow].
      apply Hrow. apply get_None_iff. lia. }
    split; [done|]. intros Hfree.
    destruct (collide b nx ny np) as [[|]|] eqn:E; try done.
    destruct (collide_true_inv _ _ _ _ E) as (r' & c' & Hocc' & Hb).
    by destruct (Hfree r' c' Hocc').
  - apply collide_total.
Qed.

(** The block [[1]] one row above the top-left corner of the empty board. *)
Lemma collide_no_top_check_witness :
  collide newBoard 0 (-1) dot = Throw.
Proof.
  refine (proj2 (proj1 (proj2 (collide_no_top_check newBoard dot 0 (-1))) _) _).
  - exists 0%nat, 0%nat. split.
    + by apply (occupied_head _ _ 0 (Number 1)).
    + unfold COLS. simpl. lia.
  - intros [|r] [|c] (cells & v & Hr & Hc & Hv); simpl in *;
      try discriminate.
    + apply above_not_blocked; unfold COLS; simpl; lia.
    + injection Hr as <-. discriminate.
Defined.

(** ** Rotation *)

Section RotateFacts.

Lemma cell_lookup (p : Shape) (i j : nat) row v :
  p !! i = Some row → row !! j = Some v → cell p i j = v.
Proof. unfold cell. intros -> Hj. simpl. by rewrite Hj. Qed.

Lemma rectangular_lookup (p : Shape) (r c i : nat) :
  rectangular p r c → (i < r)%nat →
  ∃ row, p !! i = Some row ∧ length row = c.
Proof.
  intros [Hlen Hrows] Hi.
  destruct (lookup_lt_is_Some_2 p i) as [row Hrow]; [lia|].
  exists row. split; [done|].
  by apply (proj1 (Forall_lookup _ _) Hrows i row).
Qed.

(** Two layouts of the same dimensions with the same cells are equal. *)
Lemma shape_ext (p q : Shape) (r c : nat) :
  rectangular p r c → rectangular q r c →
  (∀ i j, (i < r)%nat → (j < c)%nat → cell p i j = cell q i j) →
  p = q.
Proof.
  intros Hp Hq Hcells. apply list_eq. intros i.
  destruct (decide (i < r)%nat) as [Hi|Hi].
  - destruct (rectangular_lookup p r c i Hp Hi) as (rp & Hrp & Hlp).
    destruct (rectangular_lookup q r c i Hq Hi) as (rq & Hrq & Hlq).
    rewrite Hrp, Hrq. f_equal. apply list_eq. intros j.
    destruct (decide (j < c)%nat) as [Hj|Hj].
    + destruct (lookup_lt_is_Some_2 rp j) as [v Hv]; [lia|].
      destruct (lookup_lt_is_Some_2 rq j) as [w Hw]; [lia|].
      rewrite Hv, Hw. f_equal.
      rewrite <- (cell_lookup p i j rp v Hrp Hv).
      rewrite <- (cell_lookup q i j rq w Hrq Hw).
      by apply Hcells.
    + rewrite !(proj2 (lookup_ge_None _ _)); [done | lia | lia].
  - destruct Hp as [Hp _], Hq as [Hq _].
    rewrite !(proj2 (lookup_ge_None _ _)); [done | lia | lia].
Qed.

(** What [rotate] does to a layout of [r >= 1] rows and [c] columns:
    the result has [c] rows and [r] columns, and its cell [k][j] is the
    input cell [j][c-1-k].  The input cell [row][col] thus lands at
    [c-1-col][row]: a quarter turn counter-clockwise. *)
Lemma rotate_cells (p : Shape) (r c : nat) :
  rectangular p r c → (1 <= r)%nat →
  ∃ q, rotate p = Val q ∧ rectangular q c r ∧
       ∀ k j, (k < c)%nat → (j < r)%nat →
              cell q k j = cell p j (c - 1 - k).
Proof.
  intros Hp Hr.
  destruct (rectangular_lookup p r c 0 Hp) as (p0 & Hp0 & Hc); [lia|].
  unfold rotate. rewrite Hp0. eexists. split; [reflexivity|].
  set (f := λ (i : nat) (_ : value), (λ row, index_value row i) <$> p).
  assert (Hlen : length (reverse (imap f p0)) = c).
  { by rewrite length_reverse, length_imap. }
  assert (Hrow : ∀ k, (k < c)%nat →
            reverse (imap f p0) !! k =
            Some ((λ row, index_value row (c - 1 - k)) <$> p)).
  { intros k Hk. rewrite reverse_lookup by (rewrite length_imap; lia).
    rewrite length_imap, list_lookup_imap, Hc.
    destruct (lookup_lt_is_Some_2 p0 (c - S k)) as [v Hv]; [lia|].
    rewrite Hv. simpl. unfold f.
    by replace (c - 1 - k)%nat with (c - S k)%nat by lia. }
  split; [split|].
  - done.
  - apply Forall_lookup. intros k row Hk.
    assert (k < c)%nat as Hkc.
    { rewrite <- Hlen. by apply (lookup_lt_Some _ _ _ Hk). }
    rewrite (Hrow k Hkc) in Hk. injection Hk as <-.
    rewrite length_fmap. by destruct Hp.
  - intros k j Hk Hj.
    destruct (rectangular_lookup p r c j Hp Hj) as (rj & Hrj & _).
    unfold cell at 1. rewrite (Hrow k Hk). simpl.
    rewrite list_lookup_fmap, Hrj. simpl.
    unfold cell, index_value. by rewrite Hrj.
Qed.

End RotateFacts.

(** C4, as stated, fails for a layout without cells: [[[]]] is
    rectangular (one row, no column), [rotate] maps it to [[]], and the
    next [rotate] throws on [p[0]] being [undefined]. *)
Lemma rotate_four_times_empty_row :
  rectangular [[]] 1 0 ∧ rotate [[]] = Val [] ∧
  rotate_times 4 [[]] = Throw.
Proof.
  split; [|split]; try reflexivity.
  split; [reflexivity|]. by repeat constructor.
Qed.

(** C4 (amended): for every rectangular shape with at least one row and
    at least one column, [rotate] applied four times returns a shape equal
    cell for cell to the original. *)
Theorem rotate_four_times (p : Shape) (r c : nat) :
  rectangular p r c → (1 <= r)%nat → (1 <= c)%nat →
  rotate_times 4 p = Val p.
Proof.
  intros Hp Hr Hc.
  destruct (rotate_cells p r c Hp Hr) as (q1 & E1 & H1 & C1).
  destruct (rotate_cells q1 c r H1 Hc) as (q2 & E2 & H2 & C2).
  destruct (rotate_cells q2 r c H2 Hr) as (q3 & E3 & H3 & C3).
  destruct (rotate_cells q3 c r H3 Hc) as (q4 & E4 & H4 & C4).
  simpl. rewrite E1. simpl. rewrite E2. simpl. rewrite E3. simpl.
  rewrite E4. simpl. f_equal.
  apply (shape_ext q4 p r c H4 Hp). intros i j Hi Hj.
  rewrite C4, C3, C2, C1 by lia. f_equal; lia.
Qed.

(** The T piece: two rows, three columns. *)
Lemma rotate_four_times_witness :
  rotate_times 4 (SHAPES KT) = Val (SHAPES KT).
Proof.
  apply (rotate_four_times (SHAPES KT) 2 3).
  - split; [reflexivity|]. by repeat constructor.
  - lia.
  - lia.
Defined.

(** C7: [rotate] turns the L piece counter-clockwise.  The code returns
    [[0,0,1],[1,1,1]]; the layout the specification words (input cell
    [row][col] at output [col][r-1-row], a clockwise quarter turn) is
    [[1,1,1],[1,0,0]]. *)
Theorem rotate_L_not_clockwise :
  rotate (SHAPES KL) = Val [row_of [0; 0; 1]; row_of [1; 1; 1]] ∧
  rotate_clockwise_spec (SHAPES KL) = [row_of [1; 1; 1]; row_of [1; 0; 0]] ∧
  rotate (SHAPES KL) ≠ Val (rotate_clockwise_spec (SHAPES KL)).
Proof. split; [|split]; [reflexivity | reflexivity | discriminate]. Qed.

(** ** Rotation on the heap: fresh arrays, no write to old ones *)

Section HeapRotate.

Lemma repr_row_grow (h ext : store) (v : hvalue) (row : list value) :
  repr_row h v row → repr_row (h ++ ext) v row.
Proof.
  intros (l & -> & Hl). exists l. split; [done|].
  by apply lookup_app_l_Some.
Qed.

Lemma heap_column_repr (h : store) (i : nat) (refs : list hvalue)
    (shape : Shape) :
  Forall2 (repr_row h) refs shape →
  heap_column h refs i = Val (embed <$> ((λ r, index_value r i) <$> shape)).
Proof.
  induction 1 as [|v row refs shape (l & -> & Hl) _ IH]; [done|].
  simpl. rewrite Hl, IH. simpl. do 2 f_equal.
  unfold index_value. rewrite list_lookup_fmap.
  by destruct (row !! i).
Qed.

(** The transposition allocates one array per column, after everything
    that was there, and writes nowhere else. *)
Lemma heap_transpose_spec (refs : list hvalue) (shape : Shape) (n : nat) :
  ∀ (h : store) (i : nat),
  Forall2 (repr_row h) refs shape →
  ∃ ext cols,
    heap_transpose h refs i n = (Val cols, h ++ ext) ∧
    Forall2 (repr_row (h ++ ext)) cols
      ((λ j, (λ r, index_value r j) <$> shape) <$> seq i n) ∧
    Forall (fresh_in h) cols.
Proof.
  induction n as [|n IH]; intros h i Hrepr.
  - exists [], []. rewrite app_nil_r. by repeat split; constructor.
  - simpl. rewrite (heap_column_repr h i refs shape Hrepr).
    destruct (IH (h ++ [embed <$> ((λ r, index_value r i) <$> shape)]) (S i))
      as (ext & cols & E & Hcols & Hfresh).
    { eapply Forall2_impl; [exact Hrepr|].
      intros v row. apply repr_row_grow. }
    rewrite E. rewrite <- app_assoc in *.
    eexists _, _. split; [reflexivity|]. split.
    + constructor; [|done].
      exists (length h). split; [done|].
      by apply list_lookup_middle.
    + constructor.
      * by exists (length h).
      * eapply Forall_impl; [exact Hfresh|].
        intros v (l & -> & Hl). exists l. split; [done|].
        rewrite length_app in Hl. lia.
Qed.

Lemma imap_index {A B : Type} (g : nat → B) (l : list A) :
  imap (λ i _, g i) l = g <$> seq 0 (length l).
Proof.
  apply list_eq. intros i.
  rewrite list_lookup_imap, list_lookup_fmap.
  destruct (l !! i) as [x|] eqn:E.
  - by rewrite lookup_seq_lt by (by apply (lookup_lt_Some _ _ _ E)).
  - by rewrite lookup_seq_ge by (by apply lookup_ge_None).
Qed.

(** [rotate] on the heap agrees with [rotate] on values.  When it
    succeeds, every array of the store is where it was and holds what it
    held (the input shape and its rows included), and the result and its
    rows are new arrays. *)
Lemma heap_rotate_fresh (h : store) (p : hvalue) (shape : Shape) :
  repr h p shape →
  match rotate shape with
  | Throw => heap_rotate h p = (Throw, h)
  | Val turned =>
      ∃ q ext,
        heap_rotate h p = (Val (HRef q), h ++ ext) ∧
        (length h <= q)%nat ∧
        (∀ refs, (h ++ ext) !! q = Some refs → Forall (fresh_in h) refs) ∧
        repr (h ++ ext) (HRef q) turned ∧
        repr (h ++ ext) p shape
  end.
Proof.
  intros (lp & refs & -> & Hlp & Hrows). unfold rotate, heap_rotate.
  rewrite Hlp.
  destruct Hrows as [|v p0 refs shape (l0 & -> & Hl0) Hrest]; [done|].
  simpl lookup. cbv beta iota. rewrite Hl0, length_fmap.
  assert (Hall : Forall2 (repr_row h) (HRef l0 :: refs) (p0 :: shape)).
  { constructor; [by exists l0 | done]. }
  destruct (heap_transpose_spec _ _ (length p0) h 0 Hall)
    as (ext & cols & E & Hcols & Hfresh).
  assert (Hset : <[length (h ++ ext) := reverse cols]> ((h ++ ext) ++ [cols])
                 = h ++ (ext ++ [reverse cols])).
  { rewrite insert_app_r_alt by lia. rewrite Nat.sub_diag. simpl.
    by rewrite <- app_assoc. }
  assert (Hq : (h ++ ext ++ [reverse cols]) !! length (h ++ ext)
               = Some (reverse cols)).
  { rewrite app_assoc. by apply list_lookup_middle. }
  exists (length (h ++ ext)), (ext ++ [reverse cols]).
  split_and!.
  - rewrite E. unfold alloc. by rewrite Hset.
  - rewrite length_app. lia.
  - intros rs Hrs. rewrite Hq in Hrs. injection Hrs as <-.
    by apply Forall_reverse.
  - exists (length (h ++ ext)), (reverse cols). split_and!; [done | done |].
    rewrite imap_index. apply Forall2_reverse.
    eapply Forall2_impl; [exact Hcols|].
    intros v row Hv. rewrite app_assoc. by apply repr_row_grow.
  - exists lp, (HRef l0 :: refs). split_and!.
    + done.
    + by apply lookup_app_l_Some.
    + eapply Forall2_impl; [exact Hall|].
      intros v row. apply repr_row_grow.
Qed.

End HeapRotate.

(** Rotating the L piece appends two rows and the array that refers to
    them, last column first; the four arrays of the input are untouched. *)
Example heap_rotate_L :
  repr heap_L (HRef 3) (SHAPES KL) ∧
  heap_rotate heap_L (HRef 3) =
    (Val (HRef 6),
     heap_L ++ [[HNumber 1; HNumber 1; HNumber 1];
                [HNumber 0; HNumber 0; HNumber 1];
                [HRef 5; HRef 4]]).
Proof.
  split; [|reflexivity].
  exists 3%nat, [HRef 0; HRef 1; HRef 2]. split_and!; [done | done |].
  repeat constructor; by eexists.
Qed.

(** ** Clearing lines *)

Section ClearFacts.

(** The [while] loop adds exactly the missing rows, on top. *)
Lemma unshift_loop_eq (b : Board) (cleared : Z) :
  let n := Z.to_nat (ROWS - Z.of_nat (length b)) in
  unshift_loop b cleared = (replicate n emptyRow ++ b, cleared + Z.of_nat n).
Proof.
  functional induction (unshift_loop b cleared) as [b cleared Hlt IH|b cleared Hge].
- rewrite IH. rewrite length_cons. apply Z.ltb_lt in Hlt.
  set (m := Z.to_nat (ROWS - Z.of_nat (S (length b)))).
  replace (Z.to_nat (ROWS - Z.of_nat (length b))) with (S m) by lia.
  rewrite (replicate_S m), (replicate_cons_app m), <- app_assoc.
  simpl app. f_equal. lia.
- apply Z.ltb_ge in Hge.
  replace (Z.to_nat (ROWS - Z.of_nat (length b))) with 0%nat by lia.
  simpl. f_equal. lia.
Qed.

(** What [clearLines] computes, on any board. *)
Lemma clearLines_eq (s : state) :
  let kept := filter (λ row, some_empty row) (board s) in
  let n := Z.to_nat (ROWS - Z.of_nat (length kept)) in
  let total := score s + Z.of_nat n * 10 in
  clearLines s =
    (Val tt, set_score total (set_board (replicate n emptyRow ++ kept) s),
     [ScoreText total]).
Proof.
  unfold clearLines. rewrite unshift_loop_eq. simpl.
  by rewrite Z.add_0_l.
Qed.

(** On a row of numbers, [some] finds an empty cell exactly when not
    every cell is filled. *)
Lemma some_empty_not_full (row : list slot) :
  dense row → some_empty row = negb (row_full row).
Proof.
  unfold some_empty, row_full. induction 1 as [|sl row Hsl _ IH]; [done|].
  simpl. rewrite IH. destruct sl as [|n]; [done|]. simpl.
  by destruct (n =? 0).
Qed.

Lemma filter_some_empty (b : Board) :
  Forall dense b →
  filter (λ row, some_empty row) b = filter (λ row, row_full row = false) b.
Proof.
  induction 1 as [|row b Hrow _ IH]; [done|].
  rewrite !filter_cons, IH, (some_empty_not_full row Hrow).
  destruct (row_full row); simpl; by repeat case_decide.
Qed.

(** Full and non-full rows partition the board. *)
Lemma full_rows_count (b : Board) :
  Z.of_nat (length (filter (λ row, row_full row = false) b)) =
  Z.of_nat (length b) - full_rows b.
Proof.
  unfold full_rows. induction b as [|row b IH]; [done|].
  rewrite !filter_cons. destruct (row_full row); simpl;
    repeat case_decide; try done; simpl length; lia.
Qed.

Lemma full_rows_bounds (b : Board) :
  0 <= full_rows b <= Z.of_nat (length b).
Proof.
  unfold full_rows. pose proof (length_filter (λ row, row_full row) b). lia.
Qed.

Lemma emptyRow_dims : Z.of_nat (length emptyRow) = COLS.
Proof. reflexivity. Qed.

Lemma emptyRow_dense : dense emptyRow.
Proof. apply Forall_replicate. discriminate. Qed.

Lemma Forall_filter_keep {A : Type} (P : A → Prop) (Q : A → Prop)
    `{∀ x, Decision (Q x)} (l : list A) :
  Forall P l → Forall P (filter Q l).
Proof.
  induction 1 as [|x l Hx _ IH]; [constructor|].
  rewrite filter_cons. case_decide; [by constructor | done].
Qed.

(** [clearLines] on a well-formed board: the rows removed are the full
    ones, each replaced by an empty row on top. *)
Lemma clearLines_wf (s : state) :
  wf_board (board s) →
  let n := full_rows (board s) in
  clearLines s =
    (Val tt,
     set_score (score s + n * 10)
       (set_board (replicate (Z.to_nat n) emptyRow ++
                   filter (λ row, row_full row = false) (board s)) s),
     [ScoreText (score s + n * 10)]) ∧
  wf_board (replicate (Z.to_nat n) emptyRow ++
            filter (λ row, row_full row = false) (board s)).
Proof.
  intros [[Hlen Hwidth] Hdense]. simpl.
  pose proof (full_rows_count (board s)) as Hcount.
  pose proof (full_rows_bounds (board s)) as Hb.
  split.
  - rewrite clearLines_eq. simpl. rewrite (filter_some_empty _ Hdense).
    replace (Z.to_nat (ROWS - _)) with (Z.to_nat (full_rows (board s))) by lia.
    by rewrite Z2Nat.id by lia.
  - split; [split|].
    + rewrite length_app, length_replicate. lia.
    + apply Forall_app. split.
      * apply Forall_replicate, emptyRow_dims.
      * by apply Forall_filter_keep.
    + apply Forall_app. split.
      * apply Forall_replicate, emptyRow_dense.
      * by apply Forall_filter_keep.
Qed.

End ClearFacts.

(** [clearLines] keeps the dimensions, whatever the slots hold. *)
Lemma clearLines_dims (s : state) :
  has_dims (board s) →
  let kept := filter (λ row, some_empty row) (board s) in
  clearLines s =
    (Val tt,
     set_score (score s + Z.of_nat (length (board s) - length kept) * 10)
       (set_board (replicate (length (board s) - length kept) emptyRow ++
                   kept) s),
     [ScoreText (score s + Z.of_nat (length (board s) - length kept) * 10)]) ∧
  has_dims (replicate (length (board s) - length kept) emptyRow ++ kept).
Proof.
  intros [Hlen Hwidth] kept.
  pose proof (length_filter (λ row, some_empty row) (board s)) as Hle.
  fold kept in Hle. split.
  - rewrite clearLines_eq. fold kept. cbv zeta.
    by replace (Z.to_nat (ROWS - Z.of_nat (length kept)))
      with (length (board s) - length kept)%nat by lia.
  - split.
    + rewrite length_app, length_replicate. lia.
    + apply Forall_app. split.
      * apply Forall_replicate, emptyRow_dims.
      * by apply Forall_filter_keep.
Qed.

(** C2: on every board of [ROWS] rows, each of width [COLS],
    [clearLines] keeps the rows that [some] finds an empty cell in, in
    their order, puts one empty row of width [COLS] on top for each row
    it removed, and so returns a board of [ROWS] rows, each of width
    [COLS].  When every slot of the board holds a cell, the rows removed
    are exactly those in which every cell is occupied. *)
Theorem clearLines_keeps_dimensions (s : state) :
  has_dims (board s) →
  let after := clearLines s in
  let kept := filter (λ row, some_empty row) (board s) in
  let removed := (length (board s) - length kept)%nat in
  outcome after = Val tt ∧
  board (final after) = replicate removed emptyRow ++ kept ∧
  Z.of_nat (length emptyRow) = COLS ∧
  has_dims (board (final after)) ∧
  (Forall dense (board s) →
   kept = filter (λ row, row_full row = false) (board s) ∧
   Z.of_nat removed = full_rows (board s)).
Proof.
  intros Hdims. destruct (clearLines_dims s Hdims) as [E Hdims'].
  cbv zeta. rewrite E. unfold outcome, final. cbn [fst snd board set_board set_score].
  split_and!; try done.
  intros Hdense. rewrite (filter_some_empty _ Hdense).
  split; [done|].
  pose proof (full_rows_count (board s)) as Hcount.
  pose proof (full_rows_bounds (board s)) as Hb. lia.
Qed.

(** The empty board. *)
Lemma clearLines_keeps_dimensions_witness :
  has_dims (board (final (clearLines (State newBoard [] 0 0 0 false)))).
Proof.
  refine (proj1 (proj2 (proj2 (proj2
    (clearLines_keeps_dimensions (State newBoard [] 0 0 0 false) _))))).
  split.
  - reflexivity.
  - apply Forall_replicate. reflexivity.
Defined.

(** ** Locking a piece *)

Section MergeFacts.

Lemma get_Some_lt {A : Type} (a : list A) (i : Z) :
  0 <= i < Z.of_nat (length a) → ∃ x, get a i = Some x.
Proof.
  intros Hi. destruct (get a i) as [x|] eqn:E; [by exists x|].
  apply get_None_iff in E. lia.
Qed.

(** A write inside the grid replaces one slot and keeps the board
    well formed. *)
Lemma write_cell_inside (b : Board) (x y : Z) :
  wf_board b → 0 <= x < COLS → 0 <= y < ROWS →
  ∃ b', write_cell b x y = (Val tt, b') ∧ wf_board b'.
Proof.
  intros [[Hlen Hwidth] Hdense] Hx Hy. unfold write_cell.
  destruct (get_Some_lt b y) as [brow Hrow]; [lia|]. rewrite Hrow.
  eexists. split; [reflexivity|].
  assert (Hin : b !! Z.to_nat y = Some brow).
  { unfold get in Hrow. by destruct (Z.ltb_spec y 0); [lia|]. }
  assert (Hw : Z.of_nat (length brow) = COLS).
  { by apply (proj1 (Forall_lookup _ _) Hwidth _ _ Hin). }
  assert (Hd : dense brow).
  { by apply (proj1 (Forall_lookup _ _) Hdense _ _ Hin). }
  assert (Hset : array_set brow x (Elem 1) = <[Z.to_nat x := Elem 1]> brow).
  { unfold array_set. destruct (Z.ltb_spec x 0); [lia|].
    by destruct (Z.ltb_spec x (Z.of_nat (length brow))); [|lia]. }
  rewrite Hset. split; [split|].
  - by rewrite length_insert.
  - apply Forall_insert; [done|]. by rewrite length_insert.
  - apply Forall_insert; [done|]. by apply Forall_insert.
Qed.

Lemma merge_cells_inside (x0 y : Z) (cells : list value) : ∀ (b : Board) c,
  wf_board b →
  (∀ (j : nat) v, cells !! j = Some v → truthy v = true →
                  0 <= x0 + (c + Z.of_nat j) < COLS ∧ 0 <= y < ROWS) →
  ∃ b', merge_cells b x0 y c cells = (Val tt, b') ∧ wf_board b'.
Proof.
  induction cells as [|v rest IH]; intros b c Hwf Hin; simpl.
  - by exists b.
  - assert (Hrest : ∀ (j : nat) w, rest !! j = Some w → truthy w = true →
                      0 <= x0 + (c + 1 + Z.of_nat j) < COLS ∧ 0 <= y < ROWS).
    { intros j w Hj Hw. specialize (Hin (S j) w Hj Hw). lia. }
    destruct (truthy v) eqn:Hv.
    + specialize (Hin 0%nat v eq_refl Hv).
      destruct (write_cell_inside b (x0 + c) y Hwf) as (b1 & E & Hwf1);
        [lia | lia |].
      rewrite E. by apply IH.
    + by apply IH.
Qed.

Lemma merge_rows_inside (x0 y0 : Z) (rows : Shape) : ∀ (b : Board) r,
  wf_board b →
  (∀ i j : nat, occupied rows i j →
                0 <= x0 + Z.of_nat j < COLS ∧
                0 <= y0 + (r + Z.of_nat i) < ROWS) →
  ∃ b', merge_rows b x0 y0 r rows = (Val tt, b') ∧ wf_board b'.
Proof.
  induction rows as [|cells rest IH]; intros b r Hwf Hin; simpl.
  - by exists b.
  - destruct (merge_cells_inside x0 (y0 + r) cells b 0 Hwf)
      as (b1 & E & Hwf1).
    + intros j v Hj Hv.
      destruct (Hin 0%nat j) as [Hx Hy]; [by exists cells, v|]. lia.
    + rewrite E. apply IH; [done|].
      intros i j (cs & v & Hi & Hj & Hv).
      destruct (Hin (S i) j) as [Hx Hy]; [by exists cs, v|]. lia.
Qed.

(** A piece that does not collide where it is, on a well-formed board
    and not above row 0, locks without error and leaves the board well
    formed. *)
Lemma merge_free (s : state) :
  wf_board (board s) → 0 <= py s →
  collide (board s) (px s) (py s) (piece s) = Val false →
  ∃ b', merge s = (Val tt, set_board b' s, []) ∧ wf_board b'.
Proof.
  intros Hwf Hpy Hfree. unfold merge.
  destruct (merge_rows_inside (px s) (py s) (piece s) (board s) 0 Hwf)
    as (b' & E & Hwf').
  - intros i j Hocc.
    destruct (collide_false_inv _ _ _ _ Hfree i j Hocc) as [Hnb _].
    unfold blocked, outside in Hnb. lia.
  - rewrite E. by exists b'.
Qed.

End MergeFacts.

(** ** The timer step, branch by branch *)

Section TickFacts.
Variable k : tetromino.
Variable s : state.

(** The piece can fall: [tick] moves it down one row and redraws. *)
Lemma tick_fall :
  collide (board s) (px s) (py s + 1) (piece s) = Val false →
  tick k s = draw (set_py (py s + 1) s).
Proof.
  intros H. unfold tick, bind, collideM. rewrite H. simpl.
  unfold modify. by destruct (draw (set_py (py s + 1) s)) as [[r s'] ev].
Qed.

(** The first collision check throws: nothing else happens. *)
Lemma tick_throw :
  collide (board s) (px s) (py s + 1) (piece s) = Throw →
  tick k s = (Throw, s, []).
Proof. intros H. unfold tick, bind, collideM. by rewrite H. Qed.

(** The piece cannot fall and the lock throws half-way. *)
Lemma tick_lock_throw (b1 : Board) :
  collide (board s) (px s) (py s + 1) (piece s) = Val true →
  merge_rows (board s) (px s) (py s) 0 (piece s) = (Throw, b1) →
  tick k s = (Throw, set_board b1 s, []).
Proof.
  intros H Hm. unfold tick, bind, collideM. rewrite H.
  cbv beta iota delta [negb merge]. by rewrite Hm.
Qed.

Lemma locked_fields (b1 : Board) :
  piece (locked k s b1) = newPiece k ∧
  px (locked k s b1) = COLS / 2 - 1 ∧
  py (locked k s b1) = 0 ∧
  loop (locked k s b1) = loop s.
Proof. unfold locked. rewrite clearLines_eq. done. Qed.

Lemma locked_length (b1 : Board) :
  ROWS <= Z.of_nat (length (board (locked k s b1))).
Proof.
  unfold locked. rewrite clearLines_eq. simpl.
  rewrite length_app, length_replicate. lia.
Qed.

(** The piece cannot fall and locks: lines are cleared and scored, the
    next piece appears, and the game ends without a redraw if it
    collides there. *)
Lemma tick_lock (b1 : Board) :
  collide (board s) (px s) (py s + 1) (piece s) = Val true →
  merge_rows (board s) (px s) (py s) 0 (piece s) = (Val tt, b1) →
  let s3 := locked k s b1 in
  tick k s =
    match collide (board s3) (px s3) (py s3) (piece s3) with
    | Val true =>
        (Val tt, set_loop false s3,
         [ScoreText (score s3); ClearInterval; Alert (score s3)])
    | Val false => (Val tt, s3, [ScoreText (score s3); Draw])
    | Throw => (Throw, s3, [ScoreText (score s3)])
    end.
Proof.
  intros H Hm s3. pose proof (locked_length b1) as Hlen. fold s3 in Hlen.
  unfold tick, bind, collideM. rewrite H.
  cbv beta iota delta [negb merge]. rewrite Hm. cbv beta iota.
  unfold s3, locked in *. rewrite clearLines_eq in *.
  unfold resetPiece, modify, final in *. simpl in *.
  match goal with |- context [collide ?b ?x ?y ?p] =>
    destruct (collide b x y p) as [[|]|] end; try reflexivity.
  unfold draw. simpl.
  match goal with |- context [?a <? ROWS] =>
    destruct (Z.ltb_spec a ROWS) end; [lia | reflexivity].
Qed.

End TickFacts.

(** ** The invariant of a game *)

Section InvFacts.

Lemma newBoard_wf : wf_board newBoard.
Proof.
  split; [split|].
  - reflexivity.
  - apply Forall_replicate, emptyRow_dims.
  - apply Forall_replicate, emptyRow_dense.
Qed.

Lemma newPiece_rotatable (k : tetromino) : rotatable (newPiece k).
Proof. destruct k; by eexists _, _, _. Qed.

(** Every shape fits at the spawn position of the empty board. *)
Lemma newPiece_fits (k : tetromino) :
  collide newBoard (COLS / 2 - 1) 0 (newPiece k) = Val false.
Proof. by destruct k. Qed.

(** A rotatable shape rotates without error into a rotatable shape. *)
Lemma rotate_rotatable (p : Shape) :
  rotatable p → ∃ np, rotate p = Val np ∧ rotatable np.
Proof.
  intros (v & cells & rest & ->). unfold rotate. simpl lookup.
  eexists. split; [reflexivity|].
  set (f := λ (i : nat) (_ : value),
              (λ row, index_value row i) <$> ((v :: cells) :: rest)).
  destruct (reverse (imap f (v :: cells))) as [|row rows] eqn:E.
  - apply (f_equal length) in E.
    rewrite length_reverse, length_imap in E. discriminate.
  - assert (Hrow : row ∈ imap f (v :: cells)).
    { apply elem_of_reverse. rewrite E. by left. }
    apply elem_of_lookup_imap in Hrow as (i & w & -> & _).
    by eexists _, _, _.
Qed.

Lemma start_eq (k : tetromino) (s0 : state) :
  start k s0 =
    (Val tt, State newBoard (newPiece k) (COLS / 2 - 1) 0 0 true,
     [Draw] ++ (if loop s0 then [ClearInterval] else []) ++
     [PlayTheme; SetInterval]).
Proof. unfold start. by destruct (loop s0). Qed.

Lemma start_Inv (k : tetromino) (s0 : state) : Inv (final (start k s0)).
Proof.
  rewrite start_eq. split; simpl; try done.
  - apply newBoard_wf.
  - apply newPiece_rotatable.
  - intros _. apply newPiece_fits.
Qed.

Variable s : state.
Hypothesis HInv : Inv s.

(** On the states of a game, [collide] at or below the piece's row
    returns a boolean, for any shape. *)
Lemma Inv_collide_total (nx dy : Z) (np : Shape) :
  0 <= dy → ∃ hit : bool, collide (board s) nx (py s + dy) np = Val hit.
Proof.
  intros Hdy. destruct HInv as [[[Hlen _] _] Hpy _ _ _].
  apply collide_total; [lia|]. intros r c _. lia.
Qed.

Lemma Inv_draw (s' : state) :
  board s' = board s → draw s' = (Val tt, s', [Draw]).
Proof.
  intros E. destruct HInv as [[[Hlen _] _] _ _ _ _]. unfold draw.
  rewrite E. by destruct (Z.ltb_spec (Z.of_nat (length (board s))) ROWS); [lia|].
Qed.

(** The lock of a running game succeeds; what it leaves is well formed
    and scores ten points per full row. *)
Lemma Inv_lock (k : tetromino) :
  loop s = true →
  ∃ b1, merge s = (Val tt, set_board b1 s, []) ∧
        merge_rows (board s) (px s) (py s) 0 (piece s) = (Val tt, b1) ∧
        wf_board b1 ∧
        wf_board (board (locked k s b1)) ∧
        score (locked k s b1) = score s + full_rows b1 * 10.
Proof.
  intros Hrun. destruct HInv as [Hwf Hpy _ _ Hfree].
  destruct (merge_free s Hwf Hpy (Hfree Hrun)) as (b1 & E & Hwf1).
  exists b1. split; [done|]. split.
  { unfold merge in E.
    destruct (merge_rows (board s) (px s) (py s) 0 (piece s)) as [r b'].
    by injection E as -> ->. }
  split; [done|].
  destruct (clearLines_wf (set_board b1 s) Hwf1) as [Ec Hwf2].
  unfold locked. rewrite Ec. by split.
Qed.

(** A timer step of a running game does not throw and keeps the
    invariant. *)
Lemma tick_Inv (k : tetromino) :
  loop s = true →
  outcome (tick k s) = Val tt ∧ Inv (final (tick k s)).
Proof.
  intros Hrun.
  destruct (Inv_collide_total (px s) 1 (piece s)) as [[|] Hhit]; [lia| |].
  - destruct (Inv_lock k Hrun) as (b1 & _ & Hm & Hwf1 & Hwf3 & Hsc).
    rewrite (tick_lock k s b1 Hhit Hm).
    destruct (locked_fields k s b1) as (Hp & Hx & Hy & Hl).
    pose proof (full_rows_bounds b1) as Hfr.
    assert (Htot : ∃ hit, collide (board (locked k s b1)) (px (locked k s b1))
                     (py (locked k s b1)) (piece (locked k s b1)) = Val hit).
    { apply collide_total; [apply locked_length|]. rewrite Hy. lia. }
    destruct Htot as [[|] Hover]; rewrite Hover.
    + split; [done|]. destruct HInv.
      split; unfold final;
        cbn [fst snd board piece px py score loop set_loop];
        rewrite ?Hp, ?Hy, ?Hsc;
        first [done | lia | apply newPiece_rotatable].
    + split; [done|]. destruct HInv.
      split; unfold final; cbn [fst snd];
        first [done | by intros _
              | rewrite ?Hp, ?Hy, ?Hsc;
                first [done | lia | apply newPiece_rotatable]].
  - rewrite (tick_fall k s Hhit), Inv_draw by reflexivity.
    split; [done|]. destruct HInv. split; simpl; try done. lia.
Qed.

(** Moving or turning the piece to a free place keeps the invariant. *)
Lemma Inv_moved (s' : state) :
  board s' = board s → 0 <= py s' → rotatable (piece s') →
  score s' = score s → loop s' = loop s →
  (loop s = true →
   collide (board s) (px s') (py s') (piece s') = Val false) →
  Inv s'.
Proof.
  intros Eb Hy Hrot Es El Hfree. destruct HInv as [Hwf _ _ Hsc _].
  split; rewrite ?Eb, ?Es, ?El; done.
Qed.

(** A key does not throw, keeps the invariant, and changes neither
    the board, the score nor the timer. *)
Lemma onkeydown_Inv (e : keyname) :
  let after := onkeydown e s in
  outcome after = Val tt ∧ Inv (final after) ∧
  board (final after) = board s ∧ score (final after) = score s ∧
  loop (final after) = loop s ∧ events after = [Draw].
Proof.
  pose proof HInv as [Hwf Hpy Hrot Hsc Hfree].
  unfold onkeydown, guarded, bind, collideM, modify, ret, lift.
  destruct e; cbv beta iota delta [is_key].
  - destruct (Inv_collide_total (px s - 1) 0 (piece s)) as [[|] Hhit]; [lia| |];
      rewrite Z.add_0_r in Hhit; rewrite Hhit; cbv beta iota delta [negb];
      rewrite Inv_draw by reflexivity; simpl; split_and!; try done;
      by apply Inv_moved.
  - destruct (Inv_collide_total (px s + 1) 0 (piece s)) as [[|] Hhit]; [lia| |];
      rewrite Z.add_0_r in Hhit; rewrite Hhit; cbv beta iota delta [negb];
      rewrite Inv_draw by reflexivity; simpl; split_and!; try done;
      by apply Inv_moved.
  - destruct (Inv_collide_total (px s) 1 (piece s)) as [[|] Hhit]; [lia| |];
      rewrite Hhit; cbv beta iota delta [negb];
      rewrite Inv_draw by reflexivity; simpl; split_and!; try done;
      apply Inv_moved; simpl; try done; lia.
  - destruct (rotate_rotatable _ Hrot) as (np & Hnp & Hrot').
    rewrite Hnp. cbv beta iota.
    destruct (Inv_collide_total (px s) 0 np) as [[|] Hhit]; [lia| |];
      rewrite Z.add_0_r in Hhit; rewrite Hhit; cbv beta iota delta [negb];
      rewrite Inv_draw by reflexivity; simpl; split_and!; try done;
      by apply Inv_moved.
  - rewrite Inv_draw by reflexivity. simpl. split_and!; done.
Qed.

End InvFacts.

(** Every state of a game satisfies the invariant. *)
Lemma reachable_Inv (s : state) : reachable s → Inv s.
Proof.
  induction 1 as [k s0|c s Hs IH Hen].
  - apply start_Inv.
  - destruct c as [k|e]; simpl in *.
    + by apply tick_Inv.
    + by apply onkeydown_Inv.
Qed.

(** No command of a game throws. *)
Lemma reachable_no_throw (s : state) (c : cmd) :
  reachable s → enabled c s → outcome (step c s) = Val tt.
Proof.
  intros Hs Hen. apply reachable_Inv in Hs.
  destruct c as [k|e]; simpl in *.
  - by apply tick_Inv.
  - by apply onkeydown_Inv.
Qed.

(** A list of commands that respects the timer leads from a state of a
    game to a state of a game. *)
Lemma reachable_run (cs : list cmd) : ∀ s,
  reachable s → run_enabled cs s = true → reachable (run cs s).
Proof.
  induction cs as [|c cs IH]; intros s Hs Hen; simpl in *; [done|].
  apply andb_true_iff in Hen as [Hc Hrest].
  apply IH; [|done]. apply reach_step; [done|].
  by destruct c.
Qed.

(** ** Concrete games *)

Lemma fresh_reachable : reachable fresh.
Proof. apply reach_start. Qed.

Lemma stacked_reachable : reachable stacked.
Proof.
  apply reachable_run; [apply fresh_reachable|]. by vm_compute.
Qed.

Lemma before_clear_reachable : reachable before_clear.
Proof.
  apply reachable_run; [apply reach_start|]. by vm_compute.
Qed.

(** In [bottom_row_game] the next timer step completes one row and
    scores ten points; the game goes on. *)
Example bottom_row_scores :
  full_rows (merged before_clear) = 1 ∧
  score before_clear = 0 ∧
  score (final (tick KZ before_clear)) = 10 ∧
  events (tick KZ before_clear) = [ScoreText 10; Draw].
Proof. by vm_compute. Qed.

(** ** The timer step: gravity *)

(** C6: whenever [collide(px, py + 1)] is false, [tick] adds exactly 1 to
    the anchor row and leaves the board, the score, the piece shape and
    the anchor column (and the timer) as they were. *)
Theorem tick_gravity_step (k : tetromino) (s : state) :
  collide (board s) (px s) (py s + 1) (piece s) = Val false →
  let s' := final (tick k s) in
  py s' = py s + 1 ∧ board s' = board s ∧ score s' = score s ∧
  piece s' = piece s ∧ px s' = px s ∧ loop s' = loop s.
Proof.
  intros H. rewrite (tick_fall k s H). unfold draw.
  by destruct (Z.of_nat (length (board (set_py (py s + 1) s))) <? ROWS).
Qed.

(** The square just spawned on the empty board falls one row. *)
Lemma tick_gravity_step_witness :
  let s' := final (tick KO fresh) in
  py s' = py fresh + 1 ∧ board s' = board fresh ∧ score s' = score fresh ∧
  piece s' = piece fresh ∧ px s' = px fresh ∧ loop s' = loop fresh.
Proof. apply (tick_gravity_step KO fresh). reflexivity. Defined.

(** ** The active piece never collides *)

(** C10: in every state of a game in which the timer runs, [collide] at
    the piece's own position is false: every filled cell of the piece is
    between the left and right borders, above the floor, and on a free
    board cell. *)
Theorem active_piece_is_free (s : state) :
  reachable s → loop s = true →
  collide (board s) (px s) (py s) (piece s) = Val false ∧
  ∀ r c : nat, occupied (piece s) r c →
    0 <= px s + Z.of_nat c < COLS ∧ py s + Z.of_nat r < ROWS ∧
    isOccupied (board s) (px s + Z.of_nat c) (py s + Z.of_nat r) = false.
Proof.
  intros Hs Hrun. apply reachable_Inv in Hs.
  pose proof (inv_free s Hs Hrun) as Hfree. split; [done|].
  intros r c Hocc.
  destruct (collide_false_inv _ _ _ _ Hfree r c Hocc) as [Hnb _].
  unfold blocked, outside in Hnb.
  destruct (isOccupied (board s) (px s + Z.of_nat c) (py s + Z.of_nat r)).
  - exfalso. apply Hnb. by right.
  - repeat split; lia.
Qed.

(** The position before the bottom row is completed. *)
Lemma active_piece_is_free_witness :
  collide (board before_clear) (px before_clear) (py before_clear)
    (piece before_clear) = Val false.
Proof.
  refine (proj1 (active_piece_is_free before_clear _ _)).
  - apply before_clear_reachable.
  - by vm_compute.
Defined.

(** ** The timer step of a running game, in full *)

Section RunningTick.
Variable k : tetromino.
Variable s : state.
Hypothesis HInv : Inv s.
Hypothesis Hrun : loop s = true.


(** The three ways a timer step of a running game can go. *)
Lemma tick_cases :
  (collide (board s) (px s) (py s + 1) (piece s) = Val false ∧
   tick k s = (Val tt, set_py (py s + 1) s, [Draw])) ∨
  (collide (board s) (px s) (py s + 1) (piece s) = Val true ∧
   let s3 := locked k s (merged s) in
   wf_board (merged s) ∧
   score s3 = score s + full_rows (merged s) * 10 ∧
   board s3 = replicate (Z.to_nat (full_rows (merged s))) emptyRow ++
              filter (λ row, row_full row = false) (merged s) ∧
   ((collide (board s3) (px s3) (py s3) (piece s3) = Val true ∧
     tick k s = (Val tt, set_loop false s3,
                 [ScoreText (score s3); ClearInterval; Alert (score s3)])) ∨
    (collide (board s3) (px s3) (py s3) (piece s3) = Val false ∧
     tick k s = (Val tt, s3, [ScoreText (score s3); Draw])))).
Proof.
  destruct (Inv_collide_total s HInv (px s) 1 (piece s)) as [[|] Hhit]; [lia| |].
  - right. split; [done|].
    destruct (Inv_lock s HInv k Hrun) as (b1 & Em & Hm & Hwf1 & Hwf3 & Hsc).
    assert (Hb1 : merged s = b1) by (unfold merged; by rewrite Em).
    rewrite Hb1. cbv zeta. split_and!; try done.
    + destruct (clearLines_wf (set_board b1 s) Hwf1) as [Ec _].
      unfold locked. by rewrite Ec.
    + rewrite (tick_lock k s b1 Hhit Hm). cbv zeta.
      destruct (locked_fields k s b1) as (Hp & Hx & Hy & Hl).
      assert (Htot : ∃ hit, collide (board (locked k s b1))
                       (px (locked k s b1)) (py (locked k s b1))
                       (piece (locked k s b1)) = Val hit).
      { apply collide_total; [apply locked_length|]. rewrite Hy. lia. }
      destruct Htot as [[|] Hover]; rewrite Hover; [by left | by right].
  - left. split; [done|].
    by rewrite (tick_fall k s Hhit), (Inv_draw s HInv) by reflexivity.
Qed.

End RunningTick.

(** ** Score *)

(** C8: within a game the score is a non-negative integer; no command
    (timer step, move left, move right, soft drop, rotation) lowers it;
    it grows only on a timer step that locks the piece and clears at
    least one full row; and a locking step adds exactly [n * 10], where
    [n] is the number of full rows of the board it has merged the piece
    into, which are the rows it replaces by empty rows on top. *)
Theorem score_grows_only_by_line_clears (s : state) (c : cmd) :
  reachable s → enabled c s →
  let s' := final (step c s) in
  0 <= score s ∧
  score s <= score s' ∧
  (score s < score s' →
   ∃ k, c = Tick k ∧
        collide (board s) (px s) (py s + 1) (piece s) = Val true ∧
        1 <= full_rows (merged s)) ∧
  (∀ k, c = Tick k →
        collide (board s) (px s) (py s + 1) (piece s) = Val true →
        score s' = score s + full_rows (merged s) * 10 ∧
        board s' = replicate (Z.to_nat (full_rows (merged s))) emptyRow ++
                   filter (λ row, row_full row = false) (merged s)).
Proof.
  intros Hs Hen. apply reachable_Inv in Hs.
  pose proof (inv_score s Hs) as Hsc. cbv zeta.
  destruct c as [k|e]; simpl in Hen; simpl step.
  - pose proof (full_rows_bounds (merged s)) as Hfr.
    destruct (tick_cases k s Hs Hen)
      as [[Hfall E]|(Hlock & Hwf & Hsc3 & Hb3 & [[_ E]|[_ E]])];
      rewrite E; unfold final; cbn [fst snd score board set_py set_loop];
      rewrite ?Hsc3.
    + split_and!; [done | lia | lia | congruence].
    + split_and!; [done | lia | | by intros k' [= <-]].
      intros Hlt. exists k. split_and!; [done | done | lia].
    + split_and!; [done | lia | | by intros k' [= <-]].
      intros Hlt. exists k. split_and!; [done | done | lia].
  - destruct (onkeydown_Inv s Hs e) as (_ & _ & _ & Es & _).
    rewrite Es. split_and!; [done | lia | lia | done].
Qed.

(** The step that completes the bottom row. *)
Lemma score_grows_only_by_line_clears_witness :
  score before_clear <= score (final (step (Tick KZ) before_clear)).
Proof.
  refine (proj1 (proj2
    (score_grows_only_by_line_clears before_clear (Tick KZ) _ _))).
  - apply before_clear_reachable.
  - by vm_compute.
Defined.

(** ** Redraws *)

(** C9, as stated, fails: after ten squares have piled up in columns 4
    and 5, the timer step that locks the last one finds the next square
    colliding at its spawn position, stops the timer and alerts, and
    issues no redraw. *)
Lemma tick_game_over_without_draw :
  reachable stacked ∧
  loop stacked = true ∧
  loop (final (tick KO stacked)) = false ∧
  events (tick KO stacked) = [ScoreText 0; ClearInterval; Alert 0] ∧
  draws (events (tick KO stacked)) = 0%nat.
Proof. split; [apply stacked_reachable | by vm_compute]. Qed.

(** C9 (amended): a timer step of a running game redraws exactly once,
    as its last effect, in every branch that leaves the game running
    (the gravity step, and the lock followed by a spawn that fits); on
    the step that ends the game it does not redraw: it sets the score
    label, stops the timer and shows the alert. *)
Theorem tick_draws_unless_game_over (k : tetromino) (s : state) :
  reachable s → loop s = true →
  let after := tick k s in
  outcome after = Val tt ∧
  (loop (final after) = true →
   draws (events after) = 1%nat ∧ last (events after) = Some Draw) ∧
  (loop (final after) = false →
   draws (events after) = 0%nat ∧
   events after = [ScoreText (score (final after)); ClearInterval;
                   Alert (score (final after))]).
Proof.
  intros Hs Hrun. apply reachable_Inv in Hs. cbv zeta.
  destruct (locked_fields k s (merged s)) as (_ & _ & _ & Hl).
  destruct (tick_cases k s Hs Hrun)
    as [[_ E]|(_ & _ & _ & _ & [[_ E]|[_ E]])];
    rewrite E; unfold final, outcome, events;
    cbn [fst snd loop set_py set_loop]; rewrite ?Hl.
  - split_and!; [done | done | congruence].
  - split_and!; [done | discriminate | done].
  - split_and!; [done | done | congruence].
Qed.

(** The first step of a game redraws. *)
Lemma tick_draws_unless_game_over_witness :
  outcome (tick KO fresh) = Val tt.
Proof.
  refine (proj1 (tick_draws_unless_game_over KO fresh _ _)).
  - apply fresh_reachable.
  - reflexivity.
Defined.

(** ** Game over *)



(** A step that ends the game may still clear a line, when the board the
    fresh piece collides on is empty in row 0: in the hand-built
    position, the block of row 0 has moved to row 1 by then. *)
Example game_over_after_line_clear :
  isOccupied (board top_block_position) 6 0 = true ∧
  board (final (tick KZ top_block_position)) !! 0%nat = Some emptyRow ∧
  loop (final (tick KZ top_block_position)) = false ∧
  score (final (tick KZ top_block_position)) =
    score top_block_position + 10.
Proof. by vm_compute. Qed.

(** ** Locking a piece: what [merge] writes *)

Section MergeExact.

(** Reading a row after [row[x] = 1]: the slot [x] is filled when [x] is
    an index, the other slots read as before (slots the write skipped
    over are holes, and read as empty). *)
Lemma array_set_read (row : list slot) (x x' : Z) :
  truthy (read_slot (array_set row x (Elem 1)) x') = true ↔
  truthy (read_slot row x') = true ∨ (x' = x ∧ 0 <= x).
Proof.
  unfold array_set. destruct (Z.ltb_spec x 0) as [Hx|Hx]; [intuition lia|].
  unfold read_slot, get.
  destruct (Z.ltb_spec x' 0) as [Hx'|Hx']; [simpl; intuition (try done; lia)|].
  destruct (decide (x' = x)) as [->|Hne].
  - destruct (Z.ltb_spec x (Z.of_nat (length row))) as [Hlt|Hge].
    + rewrite list_lookup_insert_eq by lia. simpl. intuition.
    + rewrite lookup_app_r by lia.
      rewrite lookup_app_r by (rewrite length_replicate; lia).
      rewrite length_replicate.
      replace (Z.to_nat x - length row - (Z.to_nat x - length row))%nat
        with 0%nat by lia.
      simpl. intuition.
  - destruct (Z.ltb_spec x (Z.of_nat (length row))) as [Hlt|Hge].
    + rewrite list_lookup_insert_ne by lia. intuition.
    + destruct (decide (Z.to_nat x' < length row)%nat) as [Hin|Hout].
      * rewrite lookup_app_l by lia. intuition.
      * rewrite lookup_app_r by lia.
        rewrite (proj2 (lookup_ge_None row (Z.to_nat x'))) by lia.
        destruct (decide (Z.to_nat x' - length row < Z.to_nat x - length row)%nat).
        -- rewrite lookup_app_l by (rewrite length_replicate; lia).
           rewrite lookup_replicate_2 by lia. simpl. intuition.
        -- rewrite lookup_app_r by (rewrite length_replicate; lia).
           rewrite length_replicate.
           destruct (Z.to_nat x' - length row - (Z.to_nat x - length row))%nat
             as [|m] eqn:Em; [lia|].
           simpl. intuition.
Qed.

(** One write into an existing row. *)
Lemma write_cell_read (b : Board) (x y : Z) :
  get b y ≠ None →
  ∃ b', write_cell b x y = (Val tt, b') ∧ length b' = length b ∧
        ∀ x' y', isOccupied b' x' y' = true ↔
                 isOccupied b x' y' = true ∨ (x' = x ∧ y' = y ∧ 0 <= x).
Proof.
  intros Hrow. unfold write_cell.
  destruct (get b y) as [brow|] eqn:E; [|done].
  eexists. split; [reflexivity|]. split; [by rewrite length_insert|].
  intros x' y'. unfold isOccupied, get in *.
  destruct (Z.ltb_spec y 0) as [Hy|Hy]; [done|].
  destruct (Z.ltb_spec y' 0) as [Hy'|Hy']; [intuition (try done; lia)|].
  destruct (decide (y' = y)) as [->|Hne].
  - rewrite list_lookup_insert_eq by (by apply (lookup_lt_Some _ _ _ E)).
    rewrite E, array_set_read. intuition.
  - rewrite list_lookup_insert_ne by lia. intuition.
Qed.

Lemma write_cell_missing (b : Board) (x y : Z) :
  get b y = None → write_cell b x y = (Throw, b).
Proof. unfold write_cell. by intros ->. Qed.

Lemma get_same_length {A : Type} (a a' : list A) (i : Z) :
  length a' = length a → get a' i = None ↔ get a i = None.
Proof. intros E. rewrite !get_None_iff, E. done. Qed.

(** One row of the piece. *)
Lemma merge_cells_read (x0 y : Z) (cells : list value) : ∀ (b : Board) c,
  length (merge_cells b x0 y c cells).2 = length b ∧
  ((merge_cells b x0 y c cells).1 = Throw ↔
   (∃ (j : nat) v, cells !! j = Some v ∧ truthy v = true) ∧ get b y = None) ∧
  ((merge_cells b x0 y c cells).1 = Val tt →
   ∀ x' y', isOccupied (merge_cells b x0 y c cells).2 x' y' = true ↔
            isOccupied b x' y' = true ∨
            (y' = y ∧ 0 <= x' ∧
             ∃ (j : nat) v, cells !! j = Some v ∧ truthy v = true ∧
                            x' = x0 + (c + Z.of_nat j))).
Proof.
  induction cells as [|v rest IH]; intros b c.
  - simpl. split_and!; [done | | ].
    + split; [done|]. by intros [(j & w & Hj & _) _].
    + intros _ x' y'. split; [by left|].
      by intros [H|(_ & _ & j & w & Hj & _)].
  - simpl. destruct (truthy v) eqn:Hv.
    + destruct (get b y) as [brow|] eqn:Hrow.
      * destruct (write_cell_read b (x0 + c) y) as (b1 & E & Hlen & Hocc);
          [congruence|].
        rewrite E. destruct (IH b1 (c + 1)) as (IHlen & IHthrow & IHocc).
        assert (Hrow1 : get b1 y ≠ None).
        { rewrite (get_same_length b b1) by done. congruence. }
        split_and!; [congruence | |].
        -- rewrite IHthrow. split; [by intros [_ H] | by intros [_ H]].
        -- intros Hval x' y'. rewrite (IHocc Hval), Hocc. split.
           ++ intros [[H|(-> & -> & Hx)]|(-> & Hx & j & w & Hj & Hw & ->)].
              ** by left.
              ** right. split_and!; [done | done |].
                 exists 0%nat, v. split_and!; [done | done | lia].
              ** right. split_and!; [done | done |].
                 exists (S j), w. split_and!; [done | done | lia].
           ++ intros [H|(-> & Hx & [|j] & w & Hj & Hw & ->)].
              ** by left; left.
              ** left; right. split_and!; [lia | done | lia].
              ** right. split_and!; [done | done |].
                 exists j, w. split_and!; [done | done | lia].
      * rewrite (write_cell_missing b _ _ Hrow). simpl.
        split_and!; [done | | done].
        split; [|done]. intros _. split; [|done]. by exists 0%nat, v.
    + destruct (IH b (c + 1)) as (IHlen & IHthrow & IHocc).
      split_and!; [done | |].
      * rewrite IHthrow. split.
        -- intros [(j & w & Hj & Hw) Hrow]. split; [|done]. by exists (S j), w.
        -- intros [([|j] & w & Hj & Hw) Hrow].
           { simpl in Hj. congruence. }
           split; [|done]. by exists j, w.
      * intros Hval x' y'. rewrite (IHocc Hval). split.
        -- intros [H|(-> & Hx & j & w & Hj & Hw & ->)]; [by left|].
           right. split_and!; [done | done |].
           exists (S j), w. split_and!; [done | done | lia].
        -- intros [H|(-> & Hx & [|j] & w & Hj & Hw & ->)]; [by left | |].
           { simpl in Hj. congruence. }
           right. split_and!; [done | done |].
           exists j, w. split_and!; [done | done | lia].
Qed.

(** The whole piece, from row [r] on. *)
Lemma merge_rows_read (x0 y0 : Z) (rows : Shape) : ∀ (b : Board) r,
  length (merge_rows b x0 y0 r rows).2 = length b ∧
  ((merge_rows b x0 y0 r rows).1 = Throw ↔
   ∃ i j : nat, occupied rows i j ∧ get b (y0 + (r + Z.of_nat i)) = None) ∧
  ((merge_rows b x0 y0 r rows).1 = Val tt →
   ∀ x' y', isOccupied (merge_rows b x0 y0 r rows).2 x' y' = true ↔
            isOccupied b x' y' = true ∨
            (0 <= x' ∧
             ∃ i j : nat, occupied rows i j ∧
                          x' = x0 + Z.of_nat j ∧
                          y' = y0 + (r + Z.of_nat i))).
Proof.
  induction rows as [|cells rest IH]; intros b r.
  - simpl. split_and!; [done | | ].
    + split; [done|]. intros (i & j & (cs & v & Hi & _) & _).
      by rewrite lookup_nil in Hi.
    + intros _ x' y'. split; [by left|].
      intros [H|(_ & i & j & (cs & v & Hi & _) & _)]; [done|].
      by rewrite lookup_nil in Hi.
  - simpl.
    destruct (merge_cells_read x0 (y0 + r) cells b 0) as (Hlen & Hthrow & Hocc).
    destruct (merge_cells b x0 (y0 + r) 0 cells) as [[[]|] b1] eqn:E;
      simpl in Hlen, Hthrow, Hocc.
    + destruct (IH b1 (r + 1)) as (IHlen & IHthrow & IHocc).
      assert (Hnot : ¬ ((∃ (j : nat) v, cells !! j = Some v ∧ truthy v = true)
                        ∧ get b (y0 + r) = None)).
      { intros H. apply Hthrow in H. discriminate. }
      split_and!; [congruence | |].
      * rewrite IHthrow. split.
        -- intros (i & j & (cs & v & Hi & Hj & Hv) & Hnone).
           exists (S i), j. split; [by exists cs, v|].
           rewrite <- (get_same_length b b1) by done.
           by replace (r + Z.of_nat (S i)) with (r + 1 + Z.of_nat i) by lia.
        -- intros ([|i] & j & (cs & v & Hi & Hj & Hv) & Hnone).
           { simpl in Hi. injection Hi as <-. exfalso. apply Hnot.
             rewrite Z.add_0_r in Hnone. split; [by exists j, v | done]. }
           exists i, j. split; [by exists cs, v|].
           rewrite (get_same_length b b1) by done.
           by replace (r + 1 + Z.of_nat i) with (r + Z.of_nat (S i)) by lia.
      * intros Hval x' y'. rewrite (IHocc Hval), (Hocc eq_refl). split.
        -- intros [[H|(-> & Hx & j & v & Hj & Hv & ->)]
                  |(Hx & i & j & (cs & v & Hi & Hj & Hv) & -> & ->)].
           ++ by left.
           ++ right. split; [done|]. exists 0%nat, j.
              split_and!; [by exists cells, v | lia | lia].
           ++ right. split; [done|]. exists (S i), j.
              split_and!; [by exists cs, v | lia | lia].
        -- intros [H|(Hx & [|i] & j & (cs & v & Hi & Hj & Hv) & -> & ->)].
           ++ by left; left.
           ++ simpl in Hi. injection Hi as <-. left; right.
              split_and!; [lia | done |]. exists j, v.
              split_and!; [done | done | lia].
           ++ right. split; [done|]. exists i, j.
              split_and!; [by exists cs, v | lia | lia].
    + split_and!; [done | | done].
      split; [|done]. intros _.
      destruct (proj1 Hthrow eq_refl) as [(j & v & Hj & Hv) Hnone].
      exists 0%nat, j. split; [by exists cells, v|].
      by rewrite Z.add_0_r.
Qed.

End MergeExact.

(** X1: [merge] copies the piece into the board whenever every filled
    cell maps to a row the board has, wherever the columns are: it does
    not throw, and afterwards a board cell holds a block exactly if it
    held one before or a filled cell of the piece maps to it at a column
    [x >= 0].  Nothing else changes. *)
Theorem merge_writes_the_piece (s : state) :
  (∀ r c : nat, occupied (piece s) r c →
                get (board s) (py s + Z.of_nat r) ≠ None) →
  outcome (merge s) = Val tt ∧
  final (merge s) = set_board (merged s) s ∧
  events (merge s) = [] ∧
  ∀ x y, isOccupied (merged s) x y = true ↔
         isOccupied (board s) x y = true ∨
         (0 <= x ∧ ∃ r c : nat, occupied (piece s) r c ∧
                                x = px s + Z.of_nat c ∧
                                y = py s + Z.of_nat r).
Proof.
  intros Hrows. unfold merged, merge, outcome, final, events.
  destruct (merge_rows_read (px s) (py s) (piece s) (board s) 0)
    as (_ & Hthrow & Hocc).
  destruct (merge_rows (board s) (px s) (py s) 0 (piece s))
    as [[[]|] b1] eqn:E; simpl in *.
  - split_and!; try done. intros x y. by rewrite (Hocc eq_refl).
  - destruct (proj1 Hthrow eq_refl) as (i & j & Hij & Hnone).
    by destruct (Hrows i j Hij).
Qed.

(** The square resting on the floor of the empty board. *)
Lemma merge_writes_the_piece_witness :
  outcome (merge (State newBoard (SHAPES KO) 4 18 0 true)) = Val tt.
Proof.
  refine (proj1 (merge_writes_the_piece
                   (State newBoard (SHAPES KO) 4 18 0 true) _)).
  intros r c (cells & v & Hr & _). simpl in *.
  destruct r as [|[|r]]; simpl in Hr; try discriminate; by vm_compute.
Defined.

(** X2: [merge] throws exactly when some filled cell of the piece maps
    to a row the board does not have (above row 0 or below the last
    row); a column outside the row never makes it throw.  Whether it
    throws or not, the board keeps its number of rows. *)
Theorem merge_throws_on_missing_row (s : state) :
  (outcome (merge s) = Throw ↔
   ∃ r c : nat, occupied (piece s) r c ∧
                get (board s) (py s + Z.of_nat r) = None) ∧
  length (merged s) = length (board s).
Proof.
  unfold merged, merge, outcome, final.
  destruct (merge_rows_read (px s) (py s) (piece s) (board s) 0)
    as (Hlen & Hthrow & _).
  destruct (merge_rows (board s) (px s) (py s) 0 (piece s)) as [o b1].
  simpl in *. split; [|done]. by rewrite Hthrow.
Qed.

(** The square one row too low: its lower cells map to row 20. *)
Lemma merge_throws_on_missing_row_witness :
  outcome (merge (State newBoard (SHAPES KO) 4 19 0 true)) = Throw.
Proof.
  apply (proj2 (proj1 (merge_throws_on_missing_row
                         (State newBoard (SHAPES KO) 4 19 0 true)))).
  exists 1%nat, 0%nat. split; [|by vm_compute].
  by exists (row_of [1; 1]), (Number 1).
Defined.

(** ** The rules of play, over the states of a game *)

(** X3: in a running game the timer step locks the piece exactly when
    some filled cell of it lies on the bottom row or directly above a
    block of the board; otherwise the piece falls. *)
Theorem lock_only_when_supported (s : state) :
  reachable s → loop s = true →
  (collide (board s) (px s) (py s + 1) (piece s) = Val true ↔
   ∃ r c : nat, occupied (piece s) r c ∧
     (py s + Z.of_nat r = ROWS - 1 ∨
      isOccupied (board s) (px s + Z.of_nat c) (py s + Z.of_nat r + 1) = true)) ∧
  (collide (board s) (px s) (py s + 1) (piece s) = Val false ↔
   ∀ r c : nat, occupied (piece s) r c →
     py s + Z.of_nat r < ROWS - 1 ∧
     isOccupied (board s) (px s + Z.of_nat c) (py s + Z.of_nat r + 1) = false).
Proof.
  intros Hs Hrun. apply reachable_Inv in Hs.
  pose proof (inv_free s Hs Hrun) as Hfree.
  pose proof (collide_false_inv _ _ _ _ Hfree) as Hin.
  destruct (Inv_collide_total s Hs (px s) 1 (piece s)) as [hit Hhit]; [lia|].
  assert (Hsupp : ∀ r c : nat, occupied (piece s) r c →
            blocked (board s) (px s + Z.of_nat c) (py s + 1 + Z.of_nat r) ↔
            (py s + Z.of_nat r = ROWS - 1 ∨
             isOccupied (board s) (px s + Z.of_nat c)
               (py s + Z.of_nat r + 1) = true)).
  { intros r c Hocc. destruct (Hin r c Hocc) as [Hnb _].
    unfold blocked, outside in *.
    replace (py s + 1 + Z.of_nat r) with (py s + Z.of_nat r + 1) by lia.
    split; intros [H|H]; try (by right); [left|left]; lia. }
  rewrite Hhit. split.
  - split.
    + intros [= ->].
      destruct (collide_true_inv _ _ _ _ Hhit) as (r & c & Hocc & Hb).
      exists r, c. split; [done|]. by apply Hsupp.
    + intros (r & c & Hocc & Hb). destruct hit; [done|].
      destruct (collide_false_inv _ _ _ _ Hhit r c Hocc) as [Hnb _].
      exfalso. apply Hnb. by apply Hsupp.
  - split.
    + intros [= ->] r c Hocc.
      destruct (collide_false_inv _ _ _ _ Hhit r c Hocc) as [Hnb _].
      rewrite (Hsupp r c Hocc) in Hnb.
      destruct (Hin r c Hocc) as [Hnb0 _]. unfold blocked, outside in Hnb0.
      destruct (isOccupied (board s) (px s + Z.of_nat c)
                  (py s + Z.of_nat r + 1)); [tauto|].
      split; [|done]. lia.
    + intros Hall. destruct hit; [|done].
      destruct (collide_true_inv _ _ _ _ Hhit) as (r & c & Hocc & Hb).
      apply (Hsupp r c Hocc) in Hb. destruct (Hall r c Hocc) as [H1 H2].
      destruct Hb as [Hb|Hb]; [lia | congruence].
Qed.

(** The square on the floor before the bottom row is completed. *)
Lemma lock_only_when_supported_witness :
  collide (board before_clear) (px before_clear) (py before_clear + 1)
    (piece before_clear) = Val true.
Proof.
  refine (proj2 (proj1 (lock_only_when_supported before_clear _ _)) _).
  - apply before_clear_reachable.
  - by vm_compute.
  - exists 1%nat, 0%nat. split; [|left; by vm_compute].
    by exists (row_of [1; 1]), (Number 1).
Defined.

(** ** Keys *)

Section KeyFacts.
Variable s : state.
Hypothesis HInv : Inv s.

(** In a game a key never throws, redraws once, and leads to
    [key_target]. *)
Lemma onkeydown_eq (e : keyname) :
  onkeydown e s = (Val tt, key_target e s, [Draw]).
Proof.
  pose proof HInv as [Hwf Hpy Hrot Hsc Hfree].
  unfold onkeydown, guarded, bind, collideM, modify, ret, lift, key_target, free.
  destruct e; cbv beta iota delta [is_key].
  - destruct (Inv_collide_total s HInv (px s - 1) 0 (piece s)) as [[|] Hhit];
      [lia| |]; rewrite Z.add_0_r in Hhit; rewrite Hhit;
      cbv beta iota delta [negb]; by rewrite (Inv_draw s HInv) by reflexivity.
  - destruct (Inv_collide_total s HInv (px s + 1) 0 (piece s)) as [[|] Hhit];
      [lia| |]; rewrite Z.add_0_r in Hhit; rewrite Hhit;
      cbv beta iota delta [negb]; by rewrite (Inv_draw s HInv) by reflexivity.
  - destruct (Inv_collide_total s HInv (px s) 1 (piece s)) as [[|] Hhit];
      [lia| |]; rewrite Hhit;
      cbv beta iota delta [negb]; by rewrite (Inv_draw s HInv) by reflexivity.
  - destruct (rotate_rotatable _ Hrot) as (np & Hnp & _).
    rewrite Hnp. cbv beta iota.
    destruct (Inv_collide_total s HInv (px s) 0 np) as [[|] Hhit];
      [lia| |]; rewrite Z.add_0_r in Hhit; rewrite Hhit;
      cbv beta iota delta [negb]; by rewrite (Inv_draw s HInv) by reflexivity.
  - by rewrite (Inv_draw s HInv) by reflexivity.
Qed.

End KeyFacts.

(** X4: a key pressed during a game, running or over, never throws and
    redraws exactly once; it changes neither the board, the score nor
    the timer; it moves the piece by at most one column or one row down,
    never both, or turns it in place; and a key other than the four
    arrows changes nothing. *)
Theorem key_press_frame (s : state) (e : keyname) :
  reachable s →
  let after := onkeydown e s in
  let s' := final after in
  outcome after = Val tt ∧ events after = [Draw] ∧
  board s' = board s ∧ score s' = score s ∧ loop s' = loop s ∧
  (s' = s ∨
   s' = set_px (px s - 1) s ∧ e = ArrowLeft ∨
   s' = set_px (px s + 1) s ∧ e = ArrowRight ∨
   s' = set_py (py s + 1) s ∧ e = ArrowDown ∨
   (∃ np, rotate (piece s) = Val np ∧ s' = set_piece np s) ∧ e = ArrowUp) ∧
  (e = OtherKey → s' = s).
Proof.
  intros Hs. apply reachable_Inv in Hs. cbv zeta.
  rewrite (onkeydown_eq s Hs e). unfold outcome, events, final. cbn [fst snd].
  split; [done|]. split; [done|].
  destruct e; unfold key_target.
  - destruct (free _ _ _ _); split_and!; try done; [right; left|left]; done.
  - destruct (free _ _ _ _); split_and!; try done;
      [right; right; left|left]; done.
  - destruct (free _ _ _ _); split_and!; try done;
      [right; right; right; left|left]; done.
  - destruct (rotate (piece s)) as [np|] eqn:E;
      [destruct (free _ _ _ _)|]; split_and!; try done;
      try (by left).
    right; right; right; right. split; [|done]. by exists np.
  - split_and!; try done. by left.
Qed.

(** The first key of a game. *)
Lemma key_press_frame_witness :
  outcome (onkeydown ArrowUp fresh) = Val tt.
Proof.
  refine (proj1 (key_press_frame fresh ArrowUp _)). apply fresh_reachable.
Defined.

(** X5: in a running game, a move to the left that took place is undone
    by the right arrow, and a move to the right by the left arrow: the
    game is back in the state it was in. *)
Theorem left_right_round_trip (s : state) :
  reachable s → loop s = true →
  (final (onkeydown ArrowLeft s) ≠ s →
   final (onkeydown ArrowRight (final (onkeydown ArrowLeft s))) = s) ∧
  (final (onkeydown ArrowRight s) ≠ s →
   final (onkeydown ArrowLeft (final (onkeydown ArrowRight s))) = s).
Proof.
  intros Hs Hrun.
  assert (HL : reachable (final (onkeydown ArrowLeft s))).
  { by apply (reach_step (Key ArrowLeft)). }
  assert (HR : reachable (final (onkeydown ArrowRight s))).
  { by apply (reach_step (Key ArrowRight)). }
  apply reachable_Inv in HL, HR. pose proof (reachable_Inv s Hs) as HI.
  pose proof (inv_free s HI Hrun) as Hfree.
  split; intros Hmoved.
  - rewrite (onkeydown_eq _ HL). rewrite (onkeydown_eq s HI) in *.
    unfold final in *. cbn [fst snd] in *. unfold key_target in *.
    destruct (free (board s) (px s - 1) (py s) (piece s)); [|done].
    cbn [board px py piece set_px]. unfold free.
    replace (px s - 1 + 1) with (px s) by lia. rewrite Hfree.
    destruct s. unfold set_px. simpl. f_equal; lia.
  - rewrite (onkeydown_eq _ HR). rewrite (onkeydown_eq s HI) in *.
    unfold final in *. cbn [fst snd] in *. unfold key_target in *.
    destruct (free (board s) (px s + 1) (py s) (piece s)); [|done].
    cbn [board px py piece set_px]. unfold free.
    replace (px s + 1 - 1) with (px s) by lia. rewrite Hfree.
    destruct s. unfold set_px. simpl. f_equal; lia.
Qed.

(** The square just spawned moves left and back. *)
Lemma left_right_round_trip_witness :
  final (onkeydown ArrowRight (final (onkeydown ArrowLeft fresh))) = fresh.
Proof.
  refine (proj1 (left_right_round_trip fresh _ _) _).
  - apply fresh_reachable.
  - reflexivity.
  - by vm_compute.
Defined.

(** X6: in a running game the down arrow does what a timer step does
    when the piece can fall, one row down and one redraw; when the piece
    cannot fall the down arrow changes nothing: only the timer locks a
    piece. *)
Theorem soft_drop_is_a_gravity_step (s : state) (k : tetromino) :
  reachable s → loop s = true →
  (collide (board s) (px s) (py s + 1) (piece s) = Val false →
   onkeydown ArrowDown s = tick k s ∧
   final (tick k s) = set_py (py s + 1) s) ∧
  (collide (board s) (px s) (py s + 1) (piece s) = Val true →
   final (onkeydown ArrowDown s) = s ∧
   piece (final (tick k s)) = newPiece k ∧ py (final (tick k s)) = 0).
Proof.
  intros Hs Hrun. apply reachable_Inv in Hs.
  rewrite (onkeydown_eq s Hs). unfold key_target, free. split; intros Hhit.
  - rewrite Hhit, (tick_fall k s Hhit), (Inv_draw s Hs) by reflexivity. done.
  - rewrite Hhit. split; [done|].
    destruct (locked_fields k s (merged s)) as (Hp & Hx & Hy & _).
    destruct (tick_cases k s Hs Hrun)
      as [[Hf _]|(_ & _ & _ & _ & [[_ E]|[_ E]])]; [congruence | |];
      rewrite E; unfold final; cbn [fst snd piece py set_loop]; done.
Qed.

(** The square on the floor, and the square just spawned. *)
Lemma soft_drop_is_a_gravity_step_witness :
  final (onkeydown ArrowDown before_clear) = before_clear ∧
  onkeydown ArrowDown fresh = tick KO fresh.
Proof.
  split.
  - refine (proj1 (proj2 (soft_drop_is_a_gravity_step before_clear KO _ _) _)).
    + apply before_clear_reachable.
    + by vm_compute.
    + by vm_compute.
  - refine (proj1 (proj1 (soft_drop_is_a_gravity_step fresh KO _ _) _)).
    + apply fresh_reachable.
    + reflexivity.
    + reflexivity.
Defined.

(** ** The board during a game *)

Lemma emptyRow_not_full : row_full emptyRow = false.
Proof. reflexivity. Qed.

(** X7: no row of the board is ever full between two commands of a
    game: [start] gives empty rows, a lock clears every row it
    completes, and nothing else writes to the board. *)
Theorem no_full_row_in_play (s : state) :
  reachable s → ∀ row, row ∈ board s → row_full row = false.
Proof.
  induction 1 as [k s0|c s Hs IH Hen].
  - rewrite start_eq. unfold final, newBoard. cbn [fst snd board].
    intros row Hrow. apply elem_of_replicate in Hrow as [-> _].
    apply emptyRow_not_full.
  - destruct c as [k|e]; simpl in Hen; simpl step.
    + destruct (tick_cases k s (reachable_Inv s Hs) Hen)
        as [[_ E]|(_ & _ & _ & Hb & [[_ E]|[_ E]])];
        rewrite E; unfold final; cbn [fst snd board set_py set_loop];
        [done | |]; rewrite Hb; intros row Hrow;
        apply elem_of_app in Hrow as [Hrow|Hrow];
        try (apply elem_of_replicate in Hrow as [-> _];
             apply emptyRow_not_full);
        by apply list_elem_of_filter in Hrow as [Hrow _].
    + destruct (onkeydown_Inv s (reachable_Inv s Hs) e) as (_ & _ & Eb & _).
      by rewrite Eb.
Qed.

(** The game that is about to fill the bottom row. *)
Lemma no_full_row_in_play_witness :
  Forall (λ row, row_full row = false) (board before_clear).
Proof.
  apply Forall_forall, (no_full_row_in_play before_clear), before_clear_reachable.
Defined.

Lemma full_rows_app (b1 b2 : Board) :
  full_rows (b1 ++ b2) = full_rows b1 + full_rows b2.
Proof. unfold full_rows. rewrite filter_app, length_app. lia. Qed.

(** X8: when [clearLines] removes full rows, every other row moves down
    by the number of full rows that were beneath it, and as many empty
    rows as were removed appear on top. *)
Theorem cleared_rows_fall (s : state) (j : nat) (row : list slot) :
  wf_board (board s) →
  board s !! j = Some row → row_full row = false →
  let after := board (final (clearLines s)) in
  after !! (j + Z.to_nat (full_rows (drop (S j) (board s))))%nat = Some row ∧
  ∀ i, (i < Z.to_nat (full_rows (board s)))%nat → after !! i = Some emptyRow.
Proof.
  intros Hwf Hj Hrow. destruct (clearLines_wf s Hwf) as [E _].
  cbv zeta. rewrite E. unfold final. cbn [fst snd board set_board set_score].
  split.
  - pose proof (take_drop_middle _ _ _ Hj) as Hsplit.
    pose proof (full_rows_bounds (take j (board s))) as Hb1.
    pose proof (full_rows_bounds (drop (S j) (board s))) as Hb2.
    pose proof (full_rows_count (take j (board s))) as Hc.
    assert (Hlt : (j < length (board s))%nat) by (by apply (lookup_lt_Some _ _ _ Hj)).
    rewrite length_take in Hb1, Hc.
    assert (Hfull : full_rows (board s) =
                    full_rows (take j (board s)) + full_rows (drop (S j) (board s))).
    { rewrite <- Hsplit at 1. rewrite full_rows_app.
      replace (row :: drop (S j) (board s))
        with ([row] ++ drop (S j) (board s)) by done.
      rewrite full_rows_app. unfold full_rows at 2.
      rewrite filter_cons, Hrow. simpl. lia. }
    assert (Hkept : filter (λ r, row_full r = false) (board s) =
                    filter (λ r, row_full r = false) (take j (board s)) ++
                    row :: filter (λ r, row_full r = false)
                             (drop (S j) (board s))).
    { rewrite <- Hsplit at 1. rewrite filter_app, filter_cons.
      by case_decide. }
    rewrite Hkept.
    rewrite lookup_app_r by (rewrite length_replicate; lia).
    rewrite length_replicate, Hfull.
    apply list_lookup_middle. lia.
  - intros i Hi. rewrite lookup_app_l by (rewrite length_replicate; lia).
    by apply lookup_replicate_2.
Qed.

(** A board whose last row only is full: row 3 moves to row 4. *)
Lemma cleared_rows_fall_witness :
  board (final (clearLines
    (State (<[19%nat := replicate 10 (Elem 1)]>
              (<[3%nat := <[6%nat := Elem 1]> emptyRow]> newBoard))
           [] 0 0 0 false))) !! 4%nat
  = Some (<[6%nat := Elem 1]> emptyRow).
Proof.
  refine (proj1 (cleared_rows_fall
    (State (<[19%nat := replicate 10 (Elem 1)]>
              (<[3%nat := <[6%nat := Elem 1]> emptyRow]> newBoard))
           [] 0 0 0 false) 3 (<[6%nat := Elem 1]> emptyRow) _ _ _)).
  - split; [split|]; [reflexivity | |];
      repeat (apply Forall_cons; split; [by vm_compute|]);
      try apply Forall_nil.
    all: repeat constructor; discriminate.
  - reflexivity.
  - reflexivity.
Defined.

(** X9: once the game is over it stays over: the timer does not fire
    any more, and whatever keys follow, the board and the score stay as
    they are and the timer stays stopped. *)
Theorem game_over_is_final (s : state) (cs : list cmd) :
  reachable s → loop s = false → run_enabled cs s = true →
  board (run cs s) = board s ∧ score (run cs s) = score s ∧
  loop (run cs s) = false ∧ Forall (λ c, ∃ e, c = Key e) cs.
Proof.
  revert s. induction cs as [|c cs IH]; intros s Hs Hover Hen; simpl in *.
  - by split_and!.
  - apply andb_true_iff in Hen as [Hc Hrest].
    destruct c as [k|e]; [congruence|]. simpl in *.
    destruct (onkeydown_Inv s (reachable_Inv s Hs) e)
      as (_ & _ & Eb & Es & El & _).
    destruct (IH (final (onkeydown e s))) as (Hb & Hsc & Hl & Hkeys);
      [by apply (reach_step (Key e)) | congruence | done |].
    split_and!; [congruence | congruence | done |].
    constructor; [by exists e | done].
Qed.

(** After the pile of squares has ended the game, three keys. *)
Lemma game_over_is_final_witness :
  score (run [Key ArrowLeft; Key ArrowUp; Key ArrowDown] piled_over)
  = score piled_over.
Proof.
  refine (proj1 (proj2 (game_over_is_final piled_over
            [Key ArrowLeft; Key ArrowUp; Key ArrowDown] _ _ _))).
  - apply reachable_run; [apply fresh_reachable | by vm_compute].
  - by vm_compute.
  - by vm_compute.
Defined.

(** ** Rotation of any array of rows *)

(** X10: [rotate] throws exactly on the empty array.  On any other
    array of rows, ragged or not, it returns a rectangular layout with
    as many rows as the first row has cells and as many columns as the
    input has rows; its cell [k][j] is the input cell [j][w-1-k], where
    [w] is the width of the first row, and [undefined] where the input
    row [j] is too short: longer rows are cut to the width of the
    first. *)
Theorem rotate_any_rows (p : Shape) :
  (rotate p = Throw ↔ p = []) ∧
  ∀ p0 rest, p = p0 :: rest →
    ∃ q, rotate p = Val q ∧ rectangular q (length p0) (length p) ∧
         ∀ k j, (k < length p0)%nat →
                cell q k j = cell p j (length p0 - 1 - k).
Proof.
  split.
  - unfold rotate. destruct p as [|p0 rest]; simpl; by split.
  - intros p0 rest ->. unfold rotate. simpl lookup. cbv beta iota.
    eexists. split; [reflexivity|].
    set (p := p0 :: rest).
    set (f := λ (i : nat) (_ : value), (λ row, index_value row i) <$> p).
    set (w := length p0). clearbody p.
    assert (Hlen : length (reverse (imap f p0)) = w).
    { by rewrite length_reverse, length_imap. }
    assert (Hrow : ∀ k, (k < w)%nat →
              reverse (imap f p0) !! k =
              Some ((λ row, index_value row (w - 1 - k)) <$> p)).
    { intros k Hk. rewrite reverse_lookup by (rewrite length_imap; lia).
      rewrite length_imap, list_lookup_imap. fold w.
      destruct (lookup_lt_is_Some_2 p0 (w - S k)) as [v Hv]; [lia|].
      rewrite Hv. simpl. unfold f.
      by replace (w - 1 - k)%nat with (w - S k)%nat by lia. }
    split; [split|].
    + done.
    + apply Forall_lookup. intros k row Hk.
      assert (k < w)%nat as Hkw.
      { rewrite <- Hlen. by apply (lookup_lt_Some _ _ _ Hk). }
      rewrite (Hrow k Hkw) in Hk. injection Hk as <-.
      by rewrite length_fmap.
    + intros k j Hk. unfold cell at 1. rewrite (Hrow k Hk). simpl.
      rewrite list_lookup_fmap. unfold cell, index_value.
      by destruct (p !! j).
Qed.

(** A ragged array: the second row is longer than the first. *)
Lemma rotate_any_rows_witness :
  ∃ q, rotate [row_of [1]; row_of [1; 1]] = Val q ∧
       rectangular q 1 2 ∧
       ∀ k j, (k < 1)%nat →
              cell q k j = cell [row_of [1]; row_of [1; 1]] j (1 - 1 - k).
Proof.
  apply (proj2 (rotate_any_rows [row_of [1]; row_of [1; 1]])
           (row_of [1]) [row_of [1; 1]]).
  reflexivity.
Defined.

Section HalfTurn.

Lemma cell_reverse_both (p : Shape) (r c k j : nat) :
  rectangular p r c → (k < r)%nat → (j < c)%nat →
  cell (reverse (reverse <$> p)) k j = cell p (r - 1 - k) (c - 1 - j).
Proof.
  intros [Hlen Hrows] Hk Hj. unfold cell.
  rewrite reverse_lookup by (rewrite length_fmap; lia).
  rewrite length_fmap, list_lookup_fmap, Hlen.
  replace (r - S k)%nat with (r - 1 - k)%nat by lia.
  destruct (p !! (r - 1 - k)%nat) as [row|] eqn:E; [|done]. simpl.
  assert (length row = c) as Hc.
  { by apply (proj1 (Forall_lookup _ _) Hrows _ _ E). }
  rewrite reverse_lookup by lia. rewrite Hc.
  by replace (c - S j)%nat with (c - 1 - j)%nat by lia.
Qed.

Lemma rectangular_reverse_both (p : Shape) (r c : nat) :
  rectangular p r c → rectangular (reverse (reverse <$> p)) r c.
Proof.
  intros [Hlen Hrows]. split.
  - by rewrite length_reverse, length_fmap.
  - apply Forall_reverse, Forall_fmap.
    eapply Forall_impl; [exact Hrows|].
    intros row Hrow. simpl. by rewrite length_reverse.
Qed.

End HalfTurn.

(** X11: two rotations make a half turn: on a rectangular shape with
    at least one row and one column, [rotate] applied twice returns the
    rows in reverse order, each read backwards. *)
Theorem rotate_twice_is_half_turn (p : Shape) (r c : nat) :
  rectangular p r c → (1 <= r)%nat → (1 <= c)%nat →
  rotate_times 2 p = Val (reverse (reverse <$> p)).
Proof.
  intros Hp Hr Hc.
  destruct (rotate_cells p r c Hp Hr) as (q1 & E1 & H1 & C1).
  destruct (rotate_cells q1 c r H1 Hc) as (q2 & E2 & H2 & C2).
  simpl. rewrite E1. simpl. rewrite E2. simpl. f_equal.
  apply (shape_ext q2 _ r c H2 (rectangular_reverse_both p r c Hp)).
  intros i j Hi Hj.
  rewrite C2, C1 by lia. by rewrite (cell_reverse_both p r c) by done.
Qed.

(** The L piece upside down. *)
Lemma rotate_twice_is_half_turn_witness :
  rotate_times 2 (SHAPES KL) = Val (reverse (reverse <$> SHAPES KL)).
Proof.
  apply (rotate_twice_is_half_turn (SHAPES KL) 3 2).
  - split; [reflexivity|]. by repeat constructor.
  - lia.
  - lia.
Defined.

(** ** The falling piece is a tetromino *)

Section Orientations.

Lemma rotate_times_snoc (n : nat) : ∀ p,
  rotate_times (S n) p = res_bind (rotate_times n p) rotate.
Proof.
  induction n as [|n IH]; intros p.
  - simpl. by destruct (rotate p).
  - change (rotate_times (S (S n)) p)
      with (res_bind (rotate p) (rotate_times (S n))).
    change (rotate_times (S n) p) with (res_bind (rotate p) (rotate_times n)).
    destruct (rotate p) as [q|]; [|done]. simpl res_bind at 1 3.
    apply IH.
Qed.

Lemma newPiece_template (k : tetromino) : newPiece k = SHAPES k.
Proof. by destruct k. Qed.

Lemma has_filled_occupied (p : Shape) :
  has_filled p = true → ∃ r c : nat, occupied p r c.
Proof.
  unfold has_filled. rewrite existsb_exists.
  intros (cells & Hin & Hex). apply existsb_exists in Hex as (v & Hv & Ht).
  apply list_elem_of_In, list_elem_of_lookup in Hin as [r Hr].
  apply list_elem_of_In, list_elem_of_lookup in Hv as [c Hc].
  exists r, c. by exists cells, v.
Qed.

(** The 28 orientations, by computation. *)
Lemma orientation_facts (k : tetromino) (n : nat) (p : Shape) :
  (n < 4)%nat → rotate_times n (SHAPES k) = Val p →
  filled_cells p = 4 ∧ has_filled p = true ∧
  (length p <= 4)%nat ∧ Forall (λ cells, (length cells <= 4)%nat) p ∧
  ∃ q, rotate p = Val q ∧ rotate_times (S n mod 4) (SHAPES k) = Val q.
Proof.
  intros Hn E.
  destruct n as [|[|[|[|n]]]]; [| | | |lia];
    destruct k; vm_compute in E; injection E as <-;
    (split_and!; [reflexivity | reflexivity | simpl; lia
                 | repeat constructor; simpl; lia
                 | eexists; split; reflexivity]).
Qed.

End Orientations.

(** The piece of a game is a catalog shape turned zero to three times. *)
Lemma piece_orientation (s : state) :
  reachable s →
  ∃ k n, (n < 4)%nat ∧ rotate_times n (SHAPES k) = Val (piece s).
Proof.
  induction 1 as [k s0|c s Hs IH Hen].
  - exists k, 0%nat. rewrite start_eq. split; [lia|].
    unfold final. cbn [fst snd piece]. by rewrite newPiece_template.
  - destruct c as [k|e]; simpl in Hen; simpl step.
    + destruct (locked_fields k s (merged s)) as (Hp & _).
      destruct (tick_cases k s (reachable_Inv s Hs) Hen)
        as [[_ E]|(_ & _ & _ & _ & [[_ E]|[_ E]])];
        rewrite E; unfold final; cbn [fst snd piece set_py set_loop];
        [done | |]; exists k, 0%nat; rewrite Hp, newPiece_template;
        (split; [lia | done]).
    + rewrite (onkeydown_eq s (reachable_Inv s Hs) e).
      unfold final. cbn [fst snd]. unfold key_target.
      destruct IH as (k & n & Hn & E).
      destruct e; try (destruct (free _ _ _ _)); try (by exists k, n).
      destruct (orientation_facts k n _ Hn E) as (_ & _ & _ & _ & q & Eq & En).
      rewrite Eq. destruct (free _ _ _ _); [|by exists k, n].
      exists k, (S n mod 4)%nat. split; [|done].
      apply Nat.mod_upper_bound. lia.
Qed.

(** X12: the falling piece is always a tetromino: one of the seven
    catalog shapes turned zero to three times by [rotate].  It has
    exactly four filled cells and at most four rows and four columns. *)
Theorem piece_is_a_tetromino (s : state) :
  reachable s →
  (∃ k n, (n < 4)%nat ∧ rotate_times n (SHAPES k) = Val (piece s)) ∧
  filled_cells (piece s) = 4 ∧
  (length (piece s) <= 4)%nat ∧
  Forall (λ cells, (length cells <= 4)%nat) (piece s).
Proof.
  intros Hs. destruct (piece_orientation s Hs) as (k & n & Hn & E).
  split; [by exists k, n|].
  by destruct (orientation_facts k n _ Hn E) as (? & ? & ? & ? & _).
Qed.

(** The square before the bottom row is completed. *)
Lemma piece_is_a_tetromino_witness : filled_cells (piece before_clear) = 4.
Proof.
  refine (proj1 (proj2 (piece_is_a_tetromino before_clear _))).
  apply before_clear_reachable.
Defined.

(** ** A piece left alone locks *)

Section LockSoon.
Variable k : tetromino.

Lemma run_ticks_succ (n : nat) (s : state) :
  run (replicate (S n) (Tick k)) s = run (replicate n (Tick k)) (final (tick k s)).
Proof. reflexivity. Qed.

(** In a running game the anchor row is at most [ROWS - 1]. *)
Lemma running_py_bound (s : state) :
  reachable s → loop s = true → 0 <= py s <= ROWS - 1.
Proof.
  intros Hs Hrun.
  destruct (piece_orientation s Hs) as (kk & n & Hn & E).
  destruct (orientation_facts kk n _ Hn E) as (_ & Hf & _).
  destruct (has_filled_occupied _ Hf) as (r & c & Hocc).
  apply reachable_Inv in Hs. pose proof (inv_py s Hs).
  destruct (collide_false_inv _ _ _ _ (inv_free s Hs Hrun) r c Hocc) as [Hnb _].
  unfold blocked, outside in Hnb. lia.
Qed.

Lemma lock_within (m : nat) : ∀ s,
  reachable s → loop s = true → (Z.to_nat (ROWS - 1 - py s) <= m)%nat →
  ∃ n : nat,
    Z.of_nat n <= ROWS - 1 - py s ∧
    let s' := run (replicate n (Tick k)) s in
    reachable s' ∧
    board s' = board s ∧ piece s' = piece s ∧ px s' = px s ∧
    score s' = score s ∧ loop s' = true ∧
    py s' = py s + Z.of_nat n ∧
    collide (board s') (px s') (py s' + 1) (piece s') = Val true.
Proof.
  induction m as [|m IH]; intros s Hs Hrun Hm;
    pose proof (running_py_bound s Hs Hrun) as Hpy;
    destruct (Inv_collide_total s (reachable_Inv s Hs) (px s) 1 (piece s))
      as [[|] Hhit]; try lia.
  - exists 0%nat. simpl. split_and!; try done; lia.
  - exfalso.
    assert (Hs1 : reachable (final (tick k s))).
    { by apply (reach_step (Tick k)). }
    rewrite (tick_fall k s Hhit), (Inv_draw s (reachable_Inv s Hs)) in Hs1
      by reflexivity.
    pose proof (running_py_bound _ Hs1 Hrun) as Hpy1. simpl in Hpy1. lia.
  - exists 0%nat. simpl. split_and!; try done; lia.
  - assert (Hs1 : reachable (final (tick k s))).
    { by apply (reach_step (Tick k)). }
    assert (E1 : final (tick k s) = set_py (py s + 1) s).
    { by rewrite (tick_fall k s Hhit), (Inv_draw s (reachable_Inv s Hs))
        by reflexivity. }
    destruct (IH (final (tick k s)) Hs1) as (n & Hn & Hrest).
    { by rewrite E1. }
    { rewrite E1. simpl.
      pose proof Hs1 as Hs1'. rewrite E1 in Hs1'.
      pose proof (running_py_bound _ Hs1' Hrun) as Hpy1. simpl in Hpy1. lia. }
    exists (S n). rewrite run_ticks_succ. cbv zeta in *.
    rewrite E1 in Hn, Hrest. simpl in Hn, Hrest.
    destruct Hrest as (H1 & H2 & H3 & H4 & H5 & H6 & H7 & H8).
    rewrite E1. split_and!; try done; lia.
Qed.

End LockSoon.

(** X13: a piece left to the timer locks: in a running game, after
    some number [n] of timer steps, at most [ROWS - 1 - py], in which
    the piece only fell (the board, the shape, the column and the score
    are as before and the anchor row is [py + n]), it cannot fall any
    further, so that the next timer step locks it. *)
Theorem piece_locks_within_ROWS_steps (k : tetromino) (s : state) :
  reachable s → loop s = true →
  ∃ n : nat,
    Z.of_nat n <= ROWS - 1 - py s ∧
    let s' := run (replicate n (Tick k)) s in
    reachable s' ∧
    board s' = board s ∧ piece s' = piece s ∧ px s' = px s ∧
    score s' = score s ∧ loop s' = true ∧
    py s' = py s + Z.of_nat n ∧
    collide (board s') (px s') (py s' + 1) (piece s') = Val true.
Proof.
  intros Hs Hrun.
  by apply (lock_within k (Z.to_nat (ROWS - 1 - py s))).
Qed.

(** The square just spawned on the empty board. *)
Lemma piece_locks_within_ROWS_steps_witness :
  ∃ n : nat,
    Z.of_nat n <= ROWS - 1 - py fresh ∧
    let s' := run (replicate n (Tick KO)) fresh in
    reachable s' ∧
    board s' = board fresh ∧ piece s' = piece fresh ∧ px s' = px fresh ∧
    score s' = score fresh ∧ loop s' = true ∧
    py s' = py fresh + Z.of_nat n ∧
    collide (board s') (px s') (py s' + 1) (piece s') = Val true.
Proof.
  apply (piece_locks_within_ROWS_steps KO fresh).
  - apply fresh_reachable.
  - reflexivity.
Defined.

(** ** Blocks are conserved *)

Section BlockCount.

Lemma row_blocks_cons (sl : slot) (row : list slot) :
  row_blocks (sl :: row) = slot_count sl + row_blocks row.
Proof.
  unfold row_blocks, slot_count. rewrite filter_cons.
  destruct (truthy (slot_value sl)); simpl; lia.
Qed.

Lemma row_blocks_insert (row : list slot) : ∀ (i : nat) sl sl',
  row !! i = Some sl →
  row_blocks (<[i := sl']> row) = row_blocks row - slot_count sl + slot_count sl'.
Proof.
  induction row as [|a row IH]; intros [|i] sl sl' Hi; try done; simpl in *.
  - injection Hi as ->. rewrite !row_blocks_cons. lia.
  - rewrite !row_blocks_cons, (IH i sl sl' Hi). lia.
Qed.

Lemma blocks_insert (b : Board) : ∀ (i : nat) row row',
  b !! i = Some row →
  blocks (<[i := row']> b) = blocks b - row_blocks row + row_blocks row'.
Proof.
  induction b as [|a b IH]; intros [|i] row row' Hi; try done; simpl in *.
  - injection Hi as ->. lia.
  - rewrite (IH i row row' Hi). lia.
Qed.

Lemma blocks_app (b1 b2 : Board) : blocks (b1 ++ b2) = blocks b1 + blocks b2.
Proof. induction b1 as [|a b1 IH]; simpl; lia. Qed.

(** A write on a free cell of the grid adds one block. *)
Lemma write_cell_blocks (b : Board) (x y : Z) :
  wf_board b → 0 <= x < COLS → 0 <= y < ROWS →
  isOccupied b x y = false →
  ∃ b', write_cell b x y = (Val tt, b') ∧ wf_board b' ∧
        blocks b' = blocks b + 1 ∧
        ∀ x' y', isOccupied b' x' y' = true ↔
                 isOccupied b x' y' = true ∨ (x' = x ∧ y' = y ∧ 0 <= x).
Proof.
  intros Hwf Hx Hy Hfree.
  destruct (write_cell_inside b x y Hwf Hx Hy) as (b' & E & Hwf').
  destruct (write_cell_read b x y) as (b'' & E' & _ & Hocc).
  { intros Hn. apply get_None_iff in Hn. destruct Hwf as [[Hlen _] _]. lia. }
  rewrite E in E'. injection E' as <-.
  exists b'. split_and!; try done.
  destruct Hwf as [[Hlen Hwidth] _].
  unfold write_cell, isOccupied, read_slot, get in *.
  destruct (Z.ltb_spec y 0); [lia|].
  destruct (b !! Z.to_nat y) as [brow|] eqn:Hrow; [|done].
  injection E as <-.
  assert (Hw : Z.of_nat (length brow) = COLS).
  { by apply (proj1 (Forall_lookup _ _) Hwidth _ _ Hrow). }
  unfold array_set. destruct (Z.ltb_spec x 0); [lia|].
  destruct (Z.ltb_spec x (Z.of_nat (length brow))); [|lia].
  destruct (lookup_lt_is_Some_2 brow (Z.to_nat x)) as [sl Hsl]; [lia|].
  rewrite Hsl in Hfree.
  rewrite (blocks_insert b _ brow _ Hrow).
  rewrite (row_blocks_insert brow _ sl _ Hsl).
  unfold slot_count. rewrite Hfree. simpl. lia.
Qed.

Lemma merge_cells_blocks (x0 y : Z) (cells : list value) : ∀ (b : Board) c,
  wf_board b →
  (∀ (j : nat) v, cells !! j = Some v → truthy v = true →
     0 <= x0 + (c + Z.of_nat j) < COLS ∧ 0 <= y < ROWS ∧
     isOccupied b (x0 + (c + Z.of_nat j)) y = false) →
  blocks (merge_cells b x0 y c cells).2 =
    blocks b + Z.of_nat (length (filter (λ v, truthy v) cells)).
Proof.
  induction cells as [|v rest IH]; intros b c Hwf Hin; simpl.
  - lia.
  - rewrite filter_cons. destruct (truthy v) eqn:Hv; simpl.
    + destruct (Hin 0%nat v eq_refl Hv) as (Hx & Hy & Hfree).
      rewrite Z.add_0_r in Hx, Hfree.
      destruct (write_cell_blocks b (x0 + c) y Hwf Hx Hy Hfree)
        as (b1 & E & Hwf1 & Hb1 & Hocc).
      rewrite E. rewrite (IH b1 (c + 1) Hwf1).
      * rewrite Hb1. lia.
      * intros j w Hj Hw. destruct (Hin (S j) w Hj Hw) as (Hx' & _ & Hfree').
        replace (c + 1 + Z.of_nat j) with (c + Z.of_nat (S j)) by lia.
        split; [done|]; split; [done|].
        destruct (isOccupied b1 _ y) eqn:Ho; [|done].
        apply Hocc in Ho as [Ho|(Ho & _)]; [congruence | lia].
    + apply IH; [done|]. intros j w Hj Hw.
      destruct (Hin (S j) w Hj Hw) as (Hx' & Hy' & Hfree').
      by replace (c + 1 + Z.of_nat j) with (c + Z.of_nat (S j)) by lia.
Qed.

Lemma merge_rows_blocks (x0 y0 : Z) (rows : Shape) : ∀ (b : Board) r,
  wf_board b →
  (∀ i j : nat, occupied rows i j →
     0 <= x0 + Z.of_nat j < COLS ∧ 0 <= y0 + (r + Z.of_nat i) < ROWS ∧
     isOccupied b (x0 + Z.of_nat j) (y0 + (r + Z.of_nat i)) = false) →
  blocks (merge_rows b x0 y0 r rows).2 = blocks b + filled_cells rows.
Proof.
  induction rows as [|cells rest IH]; intros b r Hwf Hin; simpl.
  - lia.
  - assert (Hrow : ∀ (j : nat) v, cells !! j = Some v → truthy v = true →
       0 <= x0 + (0 + Z.of_nat j) < COLS ∧ 0 <= y0 + r < ROWS ∧
       isOccupied b (x0 + (0 + Z.of_nat j)) (y0 + r) = false).
    { intros j v Hj Hv.
      destruct (Hin 0%nat j) as (Hx & Hy & Hfree); [by exists cells, v|].
      rewrite Z.add_0_r in Hy, Hfree. rewrite Z.add_0_l. done. }
    pose proof (merge_cells_blocks x0 (y0 + r) cells b 0 Hwf Hrow) as Hb1.
    destruct (merge_cells_inside x0 (y0 + r) cells b 0 Hwf) as (b1 & E & Hwf1).
    { intros j v Hj Hv. by destruct (Hrow j v Hj Hv) as (? & ? & _). }
    destruct (merge_cells_read x0 (y0 + r) cells b 0) as (_ & _ & Hocc).
    rewrite E in *. simpl in Hb1, Hocc. specialize (Hocc eq_refl).
    rewrite (IH b1 (r + 1) Hwf1).
    + rewrite Hb1. lia.
    + intros i j (cs & v & Hi & Hj & Hv).
      destruct (Hin (S i) j) as (Hx & Hy & Hfree); [by exists cs, v|].
      replace (r + 1 + Z.of_nat i) with (r + Z.of_nat (S i)) by lia.
      split; [done|]; split; [done|].
      destruct (isOccupied b1 _ _) eqn:Ho; [|done].
      apply Hocc in Ho as [Ho|(Ho & _)]; [congruence | lia].
Qed.

(** A full row of a well-formed board holds [COLS] blocks. *)
Lemma row_blocks_full (row : list slot) :
  row_full row = true → row_blocks row = Z.of_nat (length row).
Proof.
  unfold row_full, row_blocks. induction row as [|sl row IH]; [done|].
  intros H. cbn [forallb] in H. apply andb_true_iff in H as [Hsl Hrow].
  specialize (IH Hrow). rewrite filter_cons, Hsl. simpl length. lia.
Qed.

Lemma row_blocks_empty : row_blocks emptyRow = 0.
Proof. reflexivity. Qed.

Lemma blocks_empty_rows (n : nat) : blocks (replicate n emptyRow) = 0.
Proof. induction n as [|n IH]; simpl; [done|]. rewrite row_blocks_empty. lia. Qed.

Lemma blocks_kept (b : Board) :
  Forall (λ row, Z.of_nat (length row) = COLS) b →
  blocks (filter (λ row, row_full row = false) b) =
    blocks b - COLS * full_rows b.
Proof.
  unfold full_rows. induction 1 as [|row b Hrow _ IH]; [done|].
  rewrite !filter_cons. destruct (row_full row) eqn:Hf; simpl;
    repeat case_decide; try done; simpl; try lia.
  rewrite (row_blocks_full row Hf). simpl length. lia.
Qed.

End BlockCount.

(** X14: blocks are conserved.  In a running game a timer step that only
    lets the piece fall leaves the number of blocks of the board as it
    is, and a timer step that locks the piece adds its four cells and
    takes away [COLS] blocks for each full row it clears. *)
Theorem blocks_are_conserved (k : tetromino) (s : state) :
  reachable s → loop s = true →
  let s' := final (tick k s) in
  (collide (board s) (px s) (py s + 1) (piece s) = Val false →
   blocks (board s') = blocks (board s)) ∧
  (collide (board s) (px s) (py s + 1) (piece s) = Val true →
   blocks (merged s) = blocks (board s) + 4 ∧
   blocks (board s') = blocks (board s) + 4 - COLS * full_rows (merged s)).
Proof.
  intros Hs Hrun. cbv zeta.
  destruct (piece_orientation s Hs) as (kk & n & Hn & Eor).
  destruct (orientation_facts kk n _ Hn Eor) as (Hfour & _).
  apply reachable_Inv in Hs.
  assert (Hm : blocks (merged s) = blocks (board s) + 4).
  { rewrite <- Hfour. unfold merged, merge, final.
    pose proof (merge_rows_blocks (px s) (py s) (piece s) (board s) 0
                  (inv_board s Hs)) as Hcount.
    destruct (merge_rows (board s) (px s) (py s) 0 (piece s)) as [o b1].
    simpl in *. apply Hcount. intros i j Hocc.
    destruct (collide_false_inv _ _ _ _ (inv_free s Hs Hrun) i j Hocc)
      as [Hnb _].
    pose proof (inv_py s Hs) as Hpy.
    unfold blocked, outside in Hnb. rewrite Z.add_0_l.
    destruct (isOccupied (board s) (px s + Z.of_nat j) (py s + Z.of_nat i));
      [exfalso; apply Hnb; by right|].
    split; [lia|]. split; [lia|done]. }
  pose proof (tick_cases k s Hs Hrun) as Hc. cbv zeta in Hc.
  destruct Hc as [[Hf E]|(Hl & Hwf & _ & Hb & Hend)].
  - rewrite E. split; [done | congruence].
  - split; [congruence|]. intros _. split; [done|].
    assert (E : board (final (tick k s)) = board (locked k s (merged s))).
    { by destruct Hend as [[_ E]|[_ E]]; rewrite E. }
    destruct Hwf as [[_ Hwidth] _].
    rewrite E, Hb, blocks_app, blocks_empty_rows, blocks_kept by done. lia.
Qed.

(** The step that completes the bottom row: four blocks in, ten out. *)
Lemma blocks_are_conserved_witness :
  blocks (board (final (tick KZ before_clear))) =
  blocks (board before_clear) + 4 - COLS * full_rows (merged before_clear).
Proof.
  refine (proj2 (proj2 (blocks_are_conserved KZ before_clear _ _) _)).
  - apply before_clear_reachable.
  - by vm_compute.
  - by vm_compute.
Defined.

(** ** Facts about [draw] *)

Section Painting.

Lemma paint_cells_spec (brow : list slot) (r : Z) (op : paintop) :
  op ∈ paint_cells brow r ↔
  ∃ c, 0 <= c < COLS ∧ truthy (read_slot brow c) = true ∧
       op = drawCell c r Blue.
Proof.
  unfold paint_cells. rewrite list_elem_of_bind. split.
  - intros (c & Hop & Hc). apply elem_of_seqZ in Hc.
    destruct (truthy (read_slot brow c)) eqn:Ht.
    + apply list_elem_of_singleton in Hop. exists c. split; [lia|done].
    + by apply elem_of_nil in Hop.
  - intros (c & Hc & Ht & ->). exists c. rewrite Ht. split.
    + apply list_elem_of_singleton. done.
    + apply elem_of_seqZ. lia.
Qed.

Lemma paint_rows_spec (b : Board) (rs : list Z) :
  (paint_rows b rs = Throw ↔ ∃ r, r ∈ rs ∧ get b r = None) ∧
  ∀ ops, paint_rows b rs = Val ops →
    ∀ op, op ∈ ops ↔
          ∃ r brow, r ∈ rs ∧ get b r = Some brow ∧ op ∈ paint_cells brow r.
Proof.
  induction rs as [|r rest [IHt IHv]]; simpl.
  - split.
    + split; [done|]. intros (r & Hr & _). by apply elem_of_nil in Hr.
    + intros ops [= <-] op. split.
      * intros H. by apply elem_of_nil in H.
      * intros (r & _ & Hr & _). by apply elem_of_nil in Hr.
  - destruct (get b r) as [brow|] eqn:Hrow.
    + destruct (paint_rows b rest) as [ops0|]; simpl.
      * split.
        { split; [done|]. intros (r' & Hr' & Hn).
          apply elem_of_cons in Hr' as [->|Hr']; [congruence|].
          assert (Val ops0 = Throw) by (apply IHt; eauto). done. }
        intros ops [= <-] op. rewrite elem_of_app, (IHv ops0 eq_refl op).
        split.
        { intros [H|(r' & brow' & Hr' & Hg & Hop)].
          - exists r, brow. split; [by left|done].
          - exists r', brow'. split; [by right|done]. }
        intros (r' & brow' & Hr' & Hg & Hop).
        apply elem_of_cons in Hr' as [->|Hr'].
        { left. congruence. }
        right. by exists r', brow'.
      * split; [|done]. split; [|done]. intros _.
        destruct (proj1 IHt eq_refl) as (r' & Hr' & Hn).
        exists r'. split; [by right|done].
    + split; [|done]. split; [|done]. intros _. exists r. split; [by left|done].
Qed.

Lemma paint_piece_spec (p : Shape) (x0 y0 : Z) (op : paintop) :
  op ∈ paint_piece p x0 y0 ↔
  ∃ r c : nat, occupied p r c ∧
               op = drawCell (x0 + Z.of_nat c) (y0 + Z.of_nat r) Orange.
Proof.
  unfold paint_piece, occupied. rewrite list_elem_of_join. split.
  - intros (l & Hop & Hl).
    apply elem_of_lookup_imap in Hl as (r & cells & -> & Hr).
    apply list_elem_of_join in Hop as (l & Hop & Hl).
    apply elem_of_lookup_imap in Hl as (c & v & -> & Hc).
    destruct (truthy v) eqn:Hv; [|by apply elem_of_nil in Hop].
    apply list_elem_of_singleton in Hop.
    exists r, c. split; [by exists cells, v|done].
  - intros (r & c & (cells & v & Hr & Hc & Hv) & ->).
    eexists. split; [|apply elem_of_lookup_imap; by exists r, cells].
    apply list_elem_of_join. eexists.
    split; [|apply elem_of_lookup_imap; by exists c, v].
    rewrite Hv. by apply list_elem_of_singleton.
Qed.

Lemma length_paint_row (f : nat → value → list paintop) (cells : list value) :
  (∀ c v, length (f c v) = if truthy v then 1%nat else 0%nat) →
  length (mjoin (imap f cells)) = length (filter (λ v, truthy v) cells).
Proof.
  revert f. induction cells as [|v rest IH]; intros f Hf; [done|].
  rewrite imap_cons, filter_cons. simpl.
  rewrite length_app, Hf, (IH (f ∘ S)) by (intros c w; apply Hf).
  by destruct (truthy v).
Qed.

Lemma length_paint_rows (F : nat → list value → list paintop) (p : Shape) :
  (∀ r cells, length (F r cells) = length (filter (λ v, truthy v) cells)) →
  Z.of_nat (length (mjoin (imap F p))) = filled_cells p.
Proof.
  revert F. induction p as [|cells rest IH]; intros F HF; [done|].
  rewrite imap_cons. simpl.
  rewrite length_app, Nat2Z.inj_add, HF, (IH (F ∘ S)) by (intros r cs; apply HF).
  done.
Qed.

Lemma length_paint_piece (x0 y0 : Z) (p : Shape) :
  Z.of_nat (length (paint_piece p x0 y0)) = filled_cells p.
Proof.
  unfold paint_piece. apply length_paint_rows. intros r cells.
  apply length_paint_row. intros c v. by destruct (truthy v).
Qed.

Lemma paint_rows_throw (b : Board) :
  paint_rows b (seqZ 0 ROWS) = Throw ↔ Z.of_nat (length b) < ROWS.
Proof.
  rewrite (proj1 (paint_rows_spec b (seqZ 0 ROWS))). split.
  - intros (r & Hr & Hn). apply elem_of_seqZ in Hr.
    apply get_None_iff in Hn. lia.
  - intros Hlen. exists (ROWS - 1). split.
    + apply elem_of_seqZ. unfold ROWS. lia.
    + apply get_None_iff. lia.
Qed.

Lemma paint_spec (s : state) :
  (paint s = Throw ↔ Z.of_nat (length (board s)) < ROWS) ∧
  ∀ ops, paint s = Val ops →
    ∃ blue, ops = ClearRect :: blue ++ paint_piece (piece s) (px s) (py s) ∧
      ∀ op, op ∈ blue ↔
        ∃ c r, 0 <= c < COLS ∧ 0 <= r < ROWS ∧
               isOccupied (board s) c r = true ∧ op = drawCell c r Blue.
Proof.
  split.
  { rewrite <- paint_rows_throw. unfold paint.
    by destruct (paint_rows (board s) (seqZ 0 ROWS)). }
  unfold paint. intros ops E.
  destruct (paint_rows (board s) (seqZ 0 ROWS)) as [blue|] eqn:Eb; [|done].
  simpl in E. injection E as <-. exists blue. split; [done|].
  intros op. rewrite (proj2 (paint_rows_spec _ _) blue Eb op). split.
  - intros (r & brow & Hr & Hg & Hop). apply elem_of_seqZ in Hr.
    apply paint_cells_spec in Hop as (c & Hc & Hv & ->).
    exists c, r. unfold isOccupied. rewrite Hg. split_and!; try done; lia.
  - intros (c & r & Hc & Hr & Ho & ->). unfold isOccupied in Ho.
    destruct (get (board s) r) as [brow|] eqn:Hg; [|done].
    exists r, brow. split_and!; [apply elem_of_seqZ; lia | done |].
    apply paint_cells_spec. by exists c.
Qed.

End Painting.


(** X16: what the player sees in a running game.  [draw] completes; after
    the blue squares of the board it paints exactly four orange squares,
    those of the filled cells of the piece, each of them inside the
    [COLS * SIZE] by [ROWS * SIZE] pixels of the grid and none of them on
    a square painted blue. *)
Theorem draw_piece_in_running_game (s : state) :
  reachable s → loop s = true →
  ∃ blue, paint s = Val (ClearRect :: blue ++ paint_piece (piece s) (px s) (py s)) ∧
    length (paint_piece (piece s) (px s) (py s)) = 4%nat ∧
    ∀ op, op ∈ paint_piece (piece s) (px s) (py s) →
      ∃ x y, op = FillRect Orange x y (SIZE - 1) (SIZE - 1) ∧
             0 <= x ∧ x + (SIZE - 1) < COLS * SIZE ∧
             0 <= y ∧ y + (SIZE - 1) < ROWS * SIZE ∧
             FillRect Blue x y (SIZE - 1) (SIZE - 1) ∉ blue.
Proof.
  intros Hs Hrun.
  destruct (piece_orientation s Hs) as (kk & n & Hn & Eor).
  destruct (orientation_facts kk n _ Hn Eor) as (Hfour & _).
  apply reachable_Inv in Hs.
  destruct (paint_spec s) as (Ht & Hv).
  destruct (paint s) as [ops|] eqn:Ep.
  2:{ destruct (inv_board s Hs) as [[Hlen _] _].
      assert (Z.of_nat (length (board s)) < ROWS) by by apply Ht. lia. }
  destruct (Hv ops eq_refl) as (blue & -> & Hblue).
  exists blue. split; [done|]. split.
  { apply Nat2Z.inj. by rewrite length_paint_piece. }
  intros op Hop. apply paint_piece_spec in Hop as (r & c & Hocc & ->).
  destruct (collide_false_inv _ _ _ _ (inv_free s Hs Hrun) r c Hocc)
    as [Hnb _].
  pose proof (inv_py s Hs) as Hpy.
  unfold blocked, outside in Hnb.
  eexists _, _. split; [reflexivity|].
  unfold SIZE, COLS, ROWS in *. split_and!; try lia.
  intros Hin. apply Hblue in Hin as (c' & r' & Hc' & Hr' & Ho & E).
  unfold drawCell, SIZE in E. injection E as E1 E2.
  assert (c' = px s + Z.of_nat c) by lia.
  assert (r' = py s + Z.of_nat r) by lia. subst.
  apply Hnb. by right.
Qed.

(** The square just spawned on the empty board. *)
Lemma draw_piece_in_running_game_witness :
  ∃ blue,
    paint fresh =
      Val (ClearRect :: blue ++ paint_piece (piece fresh) (px fresh) (py fresh)) ∧
    length (paint_piece (piece fresh) (px fresh) (py fresh)) = 4%nat ∧
    ∀ op, op ∈ paint_piece (piece fresh) (px fresh) (py fresh) →
      ∃ x y, op = FillRect Orange x y (SIZE - 1) (SIZE - 1) ∧
             0 <= x ∧ x + (SIZE - 1) < COLS * SIZE ∧
             0 <= y ∧ y + (SIZE - 1) < ROWS * SIZE ∧
             FillRect Blue x y (SIZE - 1) (SIZE - 1) ∉ blue.
Proof.
  apply (draw_piece_in_running_game fresh).
  - apply fresh_reachable.
  - reflexivity.
Defined.

(** ** Facts about the audio settings *)

Section Audio.

Lemma applySettings_ok (p : page) :
  in_range (settings p) →
  ∃ p', applySettings p = (Val tt, p') ∧ settings p' = settings p ∧
        stored p' = stored p ∧ shown p'.
Proof.
  unfold in_range, applySettings. intros Hr. cbv zeta.
  destruct (settings p) as [m v] eqn:Ea. simpl in *.
  destruct m; simpl.
  - eexists. split; [reflexivity|]. by unfold shown.
  - destruct (Z.ltb_spec v 0); [lia|]. destruct (Z.ltb_spec 100 v); [lia|].
    eexists. split; [reflexivity|]. by unfold shown.
Qed.

Lemma then_save_ok (a : audio) (p : page) :
  in_range a →
  ∃ p', then_save (applySettings (set_settings a p)) = (Val tt, p') ∧
        settings p' = a ∧ stored p' = Some a ∧ shown p'.
Proof.
  intros Hr.
  destruct (applySettings_ok (set_settings a p) Hr)
    as (p' & E & Hs & _ & H1 & H2 & H3 & H4).
  rewrite E. simpl in *. exists (save p'). split; [done|].
  unfold shown. simpl. rewrite Hs in *. by split_and!.
Qed.

Lemma audio_step_ok (c : audio_cmd) (p : page) :
  audio_ok p →
  ∃ p', audio_step c p = (Val tt, p') ∧ audio_ok p' ∧ shown p' ∧
        stored p' = Some (settings p').
Proof.
  intros [Hr _].
  assert (H : ∃ a, in_range a ∧
            audio_step c p = then_save (applySettings (set_settings a p))).
  { destruct c as [|level]; simpl; unfold toggleMute, setVolume; cbv zeta;
      (eexists; split; [|reflexivity]); unfold in_range in *; simpl; lia. }
  destruct H as (a & Ha & ->).
  destruct (then_save_ok a p Ha) as (p' & E & Hs & Hst & Hsh).
  exists p'. unfold audio_ok. rewrite Hst, Hs. by split_and!.
Qed.

Lemma audio_run_ok (cs : list audio_cmd) : ∀ p,
  audio_ok p →
  ∃ p', audio_run cs p = (Val tt, p') ∧ audio_ok p' ∧
        (cs ≠ [] → shown p' ∧ stored p' = Some (settings p')).
Proof.
  induction cs as [|c rest IH]; intros p Hok; simpl.
  - by exists p.
  - destruct (audio_step_ok c p Hok) as (p1 & E & Hok1 & Hsh & Hst).
    rewrite E. destruct (IH p1 Hok1) as (p' & E' & Hok' & Hne).
    exists p'. split_and!; [done | done |]. intros _.
    destruct rest as [|c' rest']; [|by apply Hne].
    simpl in E'. by injection E' as <-.
Qed.

End Audio.

(** X17: the audio controls keep the page consistent.  From settings
    whose volume is a percentage, any sequence of clicks on the mute
    button and moves of the slider, to any integer, runs without a range
    error and keeps the volume between 0 and 100; once one of them has
    run, the music, the button and the slider show the settings, and the
    stored settings are the ones in use. *)
Theorem audio_controls_stay_consistent (cs : list audio_cmd) (p : page) :
  audio_ok p → cs ≠ [] →
  ∃ p', audio_run cs p = (Val tt, p') ∧
        0 <= volume (settings p') <= 100 ∧
        shown p' ∧ stored p' = Some (settings p').
Proof.
  intros Hok Hne.
  destruct (audio_run_ok cs p Hok) as (p' & E & [Hr _] & Hsh).
  exists p'. destruct (Hsh Hne). unfold in_range in Hr.
  split; [done|]. split; [done|]. by split.
Qed.

(** Mute at 40, and a slide far beyond the scale. *)
Lemma audio_controls_stay_consistent_witness :
  ∃ p', audio_run [SlideTo 40; ClickToggle; SlideTo 250]
          (Page (Audio false 70) None 100 false String.EmptyString 70) = (Val tt, p') ∧
        0 <= volume (settings p') <= 100 ∧
        shown p' ∧ stored p' = Some (settings p').
Proof.
  apply (audio_controls_stay_consistent [SlideTo 40; ClickToggle; SlideTo 250]).
  - unfold audio_ok, in_range. simpl. lia.
  - done.
Defined.

(** X18: what a reload restores.  When the settings in use are the
    stored ones (as after any click or slide), loading the script again
    brings back the mute flag and the volume, except a volume of 0, which
    comes back as 70; the music, the button and the slider show the
    result. *)
Theorem reload_restores_all_but_volume_zero (p p0 : page) :
  audio_ok p → stored p = Some (settings p) → reopened p0 p →
  ∃ p2, load p0 = (Val tt, p2) ∧ shown p2 ∧ stored p2 = stored p ∧
        isMuted (settings p2) = isMuted (settings p) ∧
        volume (settings p2) =
          (if volume (settings p) =? 0 then 70 else volume (settings p)).
Proof.
  intros [Hr _] Hst [Hdef Hsame]. unfold load. rewrite Hsame, Hst.
  destruct (applySettings_ok
    (set_settings
       (Audio (isMuted (settings p) || false)
              (if volume (settings p) =? 0 then 70 else volume (settings p)))
       p0)) as (p2 & E & Hs & Hst2 & Hsh).
  { unfold in_range in *. simpl.
    destruct (Z.eqb_spec (volume (settings p)) 0); lia. }
  exists p2. rewrite E, Hs. simpl in *.
  rewrite Hst2, Hsame, Hst, orb_false_r. by split_and!.
Qed.

(** The volume turned down to 0 while muted: the next visit plays
    nothing, but the slider is back at 70. *)
Lemma reload_restores_all_but_volume_zero_witness :
  ∃ p2, load (Page (Audio false 70) (stored silenced) 100 false String.EmptyString 70)
          = (Val tt, p2) ∧ shown p2 ∧ stored p2 = stored silenced ∧
        isMuted (settings p2) = isMuted (settings silenced) ∧
        volume (settings p2) =
          (if volume (settings silenced) =? 0 then 70
           else volume (settings silenced)).
Proof.
  apply (reload_restores_all_but_volume_zero silenced).
  - unfold audio_ok, in_range. simpl. lia.
  - reflexivity.
  - split; reflexivity.
Defined.

(** X19: muting is undone by a second click.  On a page that shows its
    settings and has them stored, two clicks on the toggle button leave
    everything as it was. *)
Theorem toggle_twice_is_identity (p : page) :
  audio_ok p → shown p → stored p = Some (settings p) →
  audio_run [ClickToggle; ClickToggle] p = (Val tt, p).
Proof.
  intros [Hr _] (H1 & H2 & H3 & H4) Hst.
  destruct p as [[m v] st mp bm bt sl]. unfold in_range in Hr.
  simpl in *. subst.
  unfold toggleMute, applySettings. cbv zeta. simpl.
  destruct m; simpl.
  - destruct (Z.ltb_spec v 0); [lia|]. destruct (Z.ltb_spec 100 v); [lia|].
    done.
  - destruct (Z.ltb_spec v 0); [lia|]. destruct (Z.ltb_spec 100 v); [lia|].
    done.
Qed.

Lemma toggle_twice_is_identity_witness :
  audio_run [ClickToggle; ClickToggle] silenced = (Val tt, silenced).
Proof.
  apply (toggle_twice_is_identity silenced).
  - unfold audio_ok, in_range. simpl. lia.
  - unfold shown. simpl. done.
  - reflexivity.
Defined.

(** X20: the slider and the mute flag.  [setVolume] on any integer level
    sets the volume to the level clamped to 0..100; a level above 0
    unmutes, a level of 0 or less leaves the mute flag as it is; the
    music plays at the new volume unless it is muted. *)
Theorem slider_clamps_and_unmutes (level : Z) (p : page) :
  audio_ok p →
  ∃ p', setVolume level p = (Val tt, p') ∧
        volume (settings p') = Z.max 0 (Z.min 100 level) ∧
        isMuted (settings p') = isMuted (settings p) && (level <=? 0) ∧
        music_percent p' =
          (if isMuted (settings p') then 0 else volume (settings p')).
Proof.
  intros [Hr _]. unfold setVolume. cbv zeta.
  set (v := Z.max 0 (Z.min 100 level)).
  set (m := if (0 <? v) && isMuted (settings p) then false
            else isMuted (settings p)).
  destruct (then_save_ok (Audio m v) p) as (p' & E & Hs & _ & Hsh & _).
  { unfold in_range. simpl. lia. }
  exists p'. rewrite E, Hs in *. simpl in *. split_and!; try done.
  unfold m, v.
  destruct (Z.ltb_spec 0 (Z.max 0 (Z.min 100 level)));
    destruct (Z.leb_spec level 0); destruct (isMuted (settings p));
    simpl; try done; lia.
Qed.

Lemma slider_clamps_and_unmutes_witness :
  ∃ p', setVolume 250 silenced = (Val tt, p') ∧
        volume (settings p') = Z.max 0 (Z.min 100 250) ∧
        isMuted (settings p') = isMuted (settings silenced) && (250 <=? 0) ∧
        music_percent p' =
          (if isMuted (settings p') then 0 else volume (settings p')).
Proof.
  apply (slider_clamps_and_unmutes 250 silenced).
  unfold audio_ok, in_range. simpl. lia.
Defined.
